(** * GhostAnime: the anime release checker of [main.py]

    A shallow embedding of the poll / dedup / notify core of the bot:
    [fetch_recent_episodes] (the fetch pass with its per-entry dedup and
    the rendering of the notification), and the command handlers
    [start], [stop], [setchannel], [test] and [clear] acting on the three
    module-level globals [check_task], [last_seen_titles] and
    [notification_channel].

    Modelling conventions.
    - A JSON-decoded Python value is a [pyval].  A Python [str] is a Rocq
      [string], one [ascii] per character, so that [s[:200]] is
      [substring 0 200 s].
    - An expression that can raise returns a [result]; [Raise] stands for
      any Python exception (all of them are caught by the same
      [except Exception] around one endpoint).
    - The set [last_seen_titles] is a [gset string].
    - What the network answers and whether a delivery succeeds are inputs
      of a pass ([session_get], [send_ok]).  Console output ([print]) and
      the waits ([asyncio.sleep]) are not modelled. *)

From Stdlib Require Import ZArith Ascii String List Bool Lia DecimalString.
From Stdlib Require Import Floats.PrimFloat.
From stdpp Require Import gmap strings list.

Local Open Scope string_scope.
Set Warnings "-register-all,-clear-no-such-hyp".

(** ** Python values *)

Inductive pyval : Type :=
| PNone
| PBool (b : bool)
| PInt (z : Z)
| PFloat (f : float)
| PStr (s : string)
| PList (l : list pyval)
| PDict (d : list (string * pyval)).

(** The outcome of evaluating an expression: a value, or an exception. *)
Inductive result (A : Type) : Type :=
| Ok (a : A)
| Raise.
Arguments Ok {A} a.
Arguments Raise {A}.

(** Sequencing: the first exception ends the evaluation.  With this
    instance [x ← e; k] reads "evaluate [e], call its value [x], go on
    with [k]". *)
#[export] Instance result_bind : MBind result := fun A B k r =>
  match r with
  | Ok a => k a
  | Raise => Raise
  end.

(** Truth value of a Python object ([if v:], [v or w], [not v]). *)
Definition truthy (v : pyval) : bool :=
  match v with
  | PNone => false
  | PBool b => b
  | PInt z => negb (z =? 0)%Z
  | PFloat f => negb (PrimFloat.eqb f 0%float)
  | PStr s => negb (String.eqb s "")
  | PList l => match l with [] => false | _ => true end
  | PDict d => match d with [] => false | _ => true end
  end.

(** [v or w] *)
Definition py_or (v w : pyval) : pyval := if truthy v then v else w.

(** [str(n)] for an [int]. *)
Definition str_int (z : Z) : string := NilZero.string_of_int (Z.to_int z).

(** Lookup in a dict (keys of a JSON object are strings). *)
Fixpoint dict_lookup (d : list (string * pyval)) (k : string) : option pyval :=
  match d with
  | [] => None
  | (k', v) :: d' => if String.eqb k' k then Some v else dict_lookup d' k
  end.

(** [v.get(k, default)]: only a dict has a [get]; on any other value the
    attribute access raises [AttributeError]. *)
Definition py_get (v : pyval) (k : string) (default : pyval) : result pyval :=
  match v with
  | PDict d => Ok (match dict_lookup d k with Some x => x | None => default end)
  | _ => Raise
  end.

(** [v[:n]]: strings and lists can be sliced, nothing else that JSON
    decodes to can. *)
Definition py_slice (v : pyval) (n : nat) : result pyval :=
  match v with
  | PStr s => Ok (PStr (substring 0 n s))
  | PList l => Ok (PList (firstn n l))
  | _ => Raise
  end.

(** [v + '...'] with a [str] on the right: defined on a [str] only. *)
Definition py_add_str (v : pyval) (t : string) : result string :=
  match v with
  | PStr s => Ok (s +:+ t)
  | _ => Raise
  end.

Fixpoint chars (s : string) : list pyval :=
  match s with
  | EmptyString => []
  | String c s' => PStr (String c EmptyString) :: chars s'
  end.

(** The items a [for] loop over [v] visits. *)
Definition py_iter (v : pyval) : result (list pyval) :=
  match v with
  | PList l => Ok l
  | PStr s => Ok (chars s)
  | PDict d => Ok (map (fun kv => PStr (fst kv)) d)
  | _ => Raise
  end.

(** ** The entry built for a new anime ([episode_info]) *)

Record episode_info : Type := {
  title : pyval;
  title_jp : pyval;
  mal_id : pyval;
  score : pyval;
  status : pyval;
  aired_from : pyval;
  episodes : pyval;
  url : pyval;
  image : pyval;
  synopsis : string
}.

(** ** The endpoints *)

Record api : Type := {
  api_name : string;
  api_url : string;
  api_key : string
}.

Definition apis : list api :=
  [ {| api_name := "Current Season";
       api_url := "https://api.jikan.moe/v4/seasons/now";
       api_key := "data" |};
    {| api_name := "Currently Airing";
       api_url := "https://api.jikan.moe/v4/top/anime?filter=airing&limit=25";
       api_key := "data" |} ].

(** What [session.get(url, timeout=15)] followed by [res.json()] comes to. *)
Inductive response : Type :=
| TimeoutError                         (* asyncio.TimeoutError *)
| ClientError                          (* aiohttp.ClientError *)
| Response (status : Z) (json : result pyval).

(** ** The notification *)

Record channel : Type := { mention : string }.

Record field : Type := {
  field_name : string;
  field_value : string;
  field_inline : bool
}.

Record embed : Type := {
  embed_title : string;
  embed_color : Z;
  embed_description : option string;
  embed_fields : list field;
  embed_footer : option string;
  embed_thumbnail : option pyval
}.

Definition Embed (t : string) (c : Z) (d : option string) : embed :=
  {| embed_title := t; embed_color := c; embed_description := d;
     embed_fields := []; embed_footer := None; embed_thumbnail := None |}.

Definition add_field (e : embed) (n v : string) (i : bool) : embed :=
  {| embed_title := embed_title e; embed_color := embed_color e;
     embed_description := embed_description e;
     embed_fields := embed_fields e ++
        [ {| field_name := n; field_value := v; field_inline := i |} ];
     embed_footer := embed_footer e; embed_thumbnail := embed_thumbnail e |}.

Definition set_footer (e : embed) (t : string) : embed :=
  {| embed_title := embed_title e; embed_color := embed_color e;
     embed_description := embed_description e;
     embed_fields := embed_fields e;
     embed_footer := Some t; embed_thumbnail := embed_thumbnail e |}.

Definition set_thumbnail (e : embed) (u : pyval) : embed :=
  {| embed_title := embed_title e; embed_color := embed_color e;
     embed_description := embed_description e;
     embed_fields := embed_fields e;
     embed_footer := embed_footer e; embed_thumbnail := Some u |}.

(** The new line character of the f-strings. *)
Definition nl : string := String (Ascii.ascii_of_nat 10) EmptyString.

(** [needle in hay] for two strings. *)
Fixpoint contains (needle hay : string) : bool :=
  match hay with
  | EmptyString => String.prefix needle hay
  | String _ rest => String.prefix needle hay || contains needle rest
  end.

(** The failures of an endpoint the specification names: a timeout, a
    transport error, a status outside 200..299. *)
Definition endpoint_failed (r : response) : bool :=
  match r with
  | TimeoutError => true
  | ClientError => true
  | Response status _ => negb ((200 <=? status)%Z && (status <? 300)%Z)
  end.

(** What a handler sends back with [ctx.send]. *)
Inductive message : Type :=
| Text (s : string)
| Rich (e : embed).

Record context : Type := { ctx_channel : channel }.

(** ** The globals and the loop task *)

(** The life of a task made by [asyncio.create_task(check_loop())]:
    in its initial check (line 167, outside the [try]), in the [while]
    loop, asked to cancel and not yet unwound, or done.  [done()] holds
    of the last only. *)
Inductive task_state : Type :=
| TaskInitial
| TaskLooping
| TaskCancelling
| TaskDone.

Definition is_done (s : task_state) : bool :=
  match s with TaskDone => true | _ => false end.

(** The three globals.  [check_task] is [None] or a task, named by its
    index in [tasks], the list of all the tasks created so far. *)
Module Globals.
Record t : Type := {
  check_task : option nat;
  last_seen_titles : gset string;
  notification_channel : option channel;
  tasks : list task_state
}.
End Globals.

(** The module as loaded: lines 30 to 32. *)
Definition initial : Globals.t :=
  {| Globals.check_task := None;
     Globals.last_seen_titles := ∅;
     Globals.notification_channel := None;
     Globals.tasks := [] |}.

(** The loop tasks that exist and are not done. *)
Definition active (g : Globals.t) (t : nat) : bool :=
  match Globals.tasks g !! t with
  | Some s => negb (is_done s)
  | None => false
  end.

Definition active_tasks (g : Globals.t) : list nat :=
  filter (fun t => active g t = true) (seq 0 (length (Globals.tasks g))).

(** [check_task and not check_task.done()] *)
Definition running (g : Globals.t) : bool :=
  match Globals.check_task g with
  | None => false
  | Some t => active g t
  end.

(** ** The command handlers that do not fetch *)

Module Commands.

Definition started_embed (ctx : context) : embed :=
  let e := Embed "✅ Anime Checker Started!" 65280
             (Some "Using Jikan API (MyAnimeList) for reliable anime updates") in
  let e := add_field e "📍 Channel Set"
             ("Notifications will be sent to " +:+ mention (ctx_channel ctx))
             false in
  add_field e "⏰ Check Interval"
    "Every 60 minutes (respects API rate limits)" false.

(** [start]: the test and the creation of the task are not separated by
    any [await], so the handler is one step. *)
Definition start (ctx : context) (g : Globals.t) : Globals.t * list message :=
  if running g then (g, [Text "❌ Anime checker is already running!"])
  else
    ({| Globals.check_task := Some (length (Globals.tasks g));
        Globals.last_seen_titles := Globals.last_seen_titles g;
        Globals.notification_channel := Some (ctx_channel ctx);
        Globals.tasks := Globals.tasks g ++ [TaskInitial] |},
     [Rich (started_embed ctx)]).

(** [stop]: [check_task.cancel()] asks the task to cancel; the handler
    then waits for it, and the task ends in a step of its own
    ([task_exit]).  The reply is the one sent after that wait. *)
Definition stop (ctx : context) (g : Globals.t) : Globals.t * list message :=
  match Globals.check_task g with
  | Some t =>
      if active g t then
        ({| Globals.check_task := Globals.check_task g;
            Globals.last_seen_titles := Globals.last_seen_titles g;
            Globals.notification_channel := Globals.notification_channel g;
            Globals.tasks := <[ t := TaskCancelling ]> (Globals.tasks g) |},
         [Text "🛑 Anime release checker stopped."])
      else (g, [Text "❌ Anime checker is not running!"])
  | None => (g, [Text "❌ Anime checker is not running!"])
  end.

Definition status (ctx : context) (g : Globals.t) : Globals.t * list message :=
  let e := Embed "📊 Bot Status" 39423 None in
  let e :=
    if running g
    then add_field e "🟢 Checker Status" "Running" true
    else add_field e "🔴 Checker Status" "Stopped" true in
  let e :=
    match Globals.notification_channel g with
    | Some ch => add_field e "📍 Notification Channel" (mention ch) true
    | None => add_field e "📍 Notification Channel" "Not set" true
    end in
  let e := add_field e "📈 Anime Tracked"
             (str_int (Z.of_nat (size (Globals.last_seen_titles g)))) true in
  let e := add_field e "🌐 API Source" "Jikan (MyAnimeList)" true in
  (g, [Rich e]).

Definition setchannel (ctx : context) (g : Globals.t)
  : Globals.t * list message :=
  ({| Globals.check_task := Globals.check_task g;
      Globals.last_seen_titles := Globals.last_seen_titles g;
      Globals.notification_channel := Some (ctx_channel ctx);
      Globals.tasks := Globals.tasks g |},
   [Rich (Embed "✅ Channel Updated!" 65280
            (Some ("Notifications will now be sent to " +:+
                   mention (ctx_channel ctx))))]).

(** [clear]: [count = len(last_seen_titles)], then
    [last_seen_titles.clear()]. *)
Definition clear (ctx : context) (g : Globals.t) : Globals.t * list message :=
  let count := size (Globals.last_seen_titles g) in
  ({| Globals.check_task := Globals.check_task g;
      Globals.last_seen_titles := ∅;
      Globals.notification_channel := Globals.notification_channel g;
      Globals.tasks := Globals.tasks g |},
   [Text ("🗑️ Cleared " +:+ str_int (Z.of_nat count) +:+
          " tracked anime from cache. Next check will show all current anime as 'new'.")]).

End Commands.

(** A task that is not done ends: its cancellation reached it, or an
    exception escaped [check_loop]. *)
Definition task_exit (t : nat) (g : Globals.t) : Globals.t :=
  {| Globals.check_task := Globals.check_task g;
     Globals.last_seen_titles := Globals.last_seen_titles g;
     Globals.notification_channel := Globals.notification_channel g;
     Globals.tasks := <[ t := TaskDone ]> (Globals.tasks g) |}.


(** ** Sample data for the examples *)

(** None of the examples formats a float, a list or a dict, so any
    function will do for [py_repr] there. *)
Definition repr_unused : pyval -> string := fun _ => "".

(** A raw entry as the catalog returns it. *)
Definition sample_fields (id : Z) (name : string) : list (string * pyval) :=
  [ ("mal_id", PInt id);
    ("url", PStr ("https://myanimelist.net/anime/" +:+ str_int id));
    ("images", PDict [("jpg", PDict [("image_url", PStr "https://cdn.myanimelist.net/images/anime/1.jpg")])]);
    ("title", PStr name);
    ("title_english", PNone);
    ("status", PStr "Currently Airing");
    ("aired", PDict [("from", PStr "2024-04-06T00:00:00+00:00")]);
    ("episodes", PInt 12);
    ("score", PInt 8);
    ("synopsis", PStr "A story.") ].

Definition sample_anime (id : Z) (name : string) : pyval :=
  PDict (sample_fields id name).

Definition naruto : pyval := sample_anime 20 "Naruto".
Definition bleach : pyval := sample_anime 269 "Bleach".
Definition monster : pyval := sample_anime 19 "Monster".

(** An entry the catalog lists with a score and an episode count of 0. *)
Definition unrated_fields : list (string * pyval) :=
  [ ("mal_id", PInt 1); ("title", PStr "Pilot");
    ("status", PStr "Not yet aired");
    ("episodes", PInt 0); ("score", PInt 0);
    ("url", PStr "https://myanimelist.net/anime/1") ].

(** A body with the entries under ["data"]. *)
Definition body (entries : list pyval) : response :=
  Response 200 (Ok (PDict [("data", PList entries)])).

(** Eight entries with eight identities. *)
Definition eight : list pyval :=
  map (fun n => sample_anime (Z.of_nat n) "Anime") (seq 1 8).

Definition eight_everywhere (u : string) : response := body eight.

(** Seven of them, and the store that holds their seven identities. *)
Definition seven : list pyval := firstn 7 eight.

Definition seven_seen : Globals.t :=
  {| Globals.check_task := None;
     Globals.last_seen_titles :=
       list_to_set (map (fun n => str_int (Z.of_nat n) +:+ "_Anime") (seq 1 7));
     Globals.notification_channel := None;
     Globals.tasks := [] |}.

(** The two endpoints of [apis]. *)
Definition current_season : api :=
  {| api_name := "Current Season";
     api_url := "https://api.jikan.moe/v4/seasons/now";
     api_key := "data" |}.

Definition currently_airing : api :=
  {| api_name := "Currently Airing";
     api_url := "https://api.jikan.moe/v4/top/anime?filter=airing&limit=25";
     api_key := "data" |}.

(** The first endpoint times out, the second one answers with three
    entries. *)
Definition first_times_out (u : string) : response :=
  if String.eqb u "https://api.jikan.moe/v4/seasons/now"
  then TimeoutError
  else body [naruto; bleach; monster].

(** A synopsis of 500 characters. *)
Definition long_synopsis : string :=
  string_of_list_ascii (repeat "a"%char 500).

Definition with_long_synopsis : list (string * pyval) :=
  [ ("mal_id", PInt 21); ("title", PStr "One Piece");
    ("synopsis", PStr long_synopsis) ].

Definition general : context := {| ctx_channel := {| mention := "<#1>" |} |}.

Definition announcements : context :=
  {| ctx_channel := {| mention := "<#2>" |} |}.

(** A raw entry whose ["aired"] is null. *)
Definition aired_null_fields : list (string * pyval) :=
  [ ("mal_id", PInt 5); ("title", PStr "Cowboy Bebop"); ("aired", PNone) ].

Definition aired_null : pyval := PDict aired_null_fields.

(** A raw entry whose ["synopsis"] is a number. *)
Definition numeric_synopsis : list (string * pyval) :=
  [ ("mal_id", PInt 6); ("title", PStr "Trigun"); ("synopsis", PInt 7) ].

(** The same anime twice, the second time with another score. *)
Definition rescored_fields : list (string * pyval) :=
  [ ("mal_id", PInt 20); ("title", PStr "Naruto"); ("score", PInt 9) ].

Definition naruto_everywhere (u : string) : response := body [naruto].

Section Bot.

(** [str()] of the values whose text Python computes through [repr]
    (floats, lists and dicts).  The bot only pastes that text into
    messages and identifiers, so it is left uninterpreted: every result
    below holds whatever this function is. *)
Variable py_repr : pyval -> string.

(** [str(v)], which is what [f"{v}"] inserts. *)
Definition py_str (v : pyval) : string :=
  match v with
  | PNone => "None"
  | PBool true => "True"
  | PBool false => "False"
  | PInt z => str_int z
  | PStr s => s
  | PFloat _ | PList _ | PDict _ => py_repr v
  end.

(** *** [fetch_recent_episodes]: the dedup of one endpoint's entries *)

(** [f"{mal_id}_{title}"] *)
Definition unique_id (mal_id title : pyval) : string :=
  py_str mal_id +:+ "_" +:+ py_str title.

(** The conditional expression stored under ['synopsis']:
    [anime.get('synopsis', '')[:200] + '...' if anime.get('synopsis')
     else 'No synopsis available']. *)
Definition synopsis_of (anime : pyval) : result string :=
  cond ← py_get anime "synopsis" PNone;
  if truthy cond then
    s ← py_get anime "synopsis" (PStr "");
    cut ← py_slice s 200;
    py_add_str cut "..."
  else Ok "No synopsis available".

(** The dict literal [episode_info = {...}]. *)
Definition make_episode_info (anime title_english title mal_id : pyval)
  : result episode_info :=
  score ← py_get anime "score" PNone;
  status ← py_get anime "status" PNone;
  aired ← py_get anime "aired" (PDict []);
  aired_from ← py_get aired "from" PNone;
  episodes ← py_get anime "episodes" PNone;
  url ← py_get anime "url" PNone;
  images ← py_get anime "images" (PDict []);
  jpg ← py_get images "jpg" (PDict []);
  image ← py_get jpg "image_url" (PStr "");
  synopsis ← synopsis_of anime;
  Ok {| title := title_english; title_jp := title; mal_id := mal_id;
        score := score; status := status; aired_from := aired_from;
        episodes := episodes; url := url; image := image;
        synopsis := synopsis |}.

(** The two objects the loop mutates in place: the global set
    [last_seen_titles] and the local list [new_episodes]. *)
Record differ_state : Type := {
  last_seen_titles : gset string;
  new_episodes : list episode_info
}.

(** The body of [for anime in anime_list[:10]].  Its two mutations
    ([append], [add]) come after every expression that can raise, so an
    exception leaves both objects as they were. *)
Definition process_anime (anime : pyval) (st : differ_state)
  : result differ_state :=
  title ← py_get anime "title" (PStr "Unknown Anime");
  te ← py_get anime "title_english" PNone;
  let title_english := py_or te title in
  mal_id ← py_get anime "mal_id" PNone;
  let uid := unique_id mal_id title in
  if bool_decide (uid ∉ last_seen_titles st) then
    info ← make_episode_info anime title_english title mal_id;
    Ok {| last_seen_titles := {[ uid ]} ∪ last_seen_titles st;
          new_episodes := new_episodes st ++ [info] |}
  else Ok st.

(** The [for] loop over the items: it stops at the first exception, which
    the handler around the endpoint catches; what was appended and added
    before stays. The boolean tells whether the loop ran to its end. *)
Fixpoint for_anime (items : list pyval) (st : differ_state)
  : differ_state * bool :=
  match items with
  | [] => (st, true)
  | anime :: rest =>
      match process_anime anime st with
      | Ok st' => for_anime rest st'
      | Raise => (st, false)
      end
  end.

(** *** [fetch_recent_episodes]: one endpoint *)

(** One turn of [for api in apis], on the answer [r] of the endpoint.
    Every way out of the [try] block other than the inner loop leaves
    [last_seen_titles] and [new_episodes] untouched: the two [continue]s
    (status other than 200, empty list) and the three handlers (timeout,
    client error, any other exception). *)
Definition fetch_api (a : api) (r : response) (st : differ_state)
  : differ_state :=
  match r with
  | TimeoutError => st
  | ClientError => st
  | Response status json =>
      if negb (status =? 200)%Z then st
      else
        match json with
        | Raise => st
        | Ok data =>
            match py_get data (api_key a) (PList []) with
            | Raise => st
            | Ok anime_list =>
                if negb (truthy anime_list) then st
                else
                  match (sl ← py_slice anime_list 10; py_iter sl) with
                  | Raise => st
                  | Ok items => fst (for_anime items st)
                  end
            end
        end
  end.

(** The loop [for api in apis], with the answers of the network given by
    [session_get], from URL to response. *)
Definition fetch_all (l : list api) (session_get : string -> response)
  (st : differ_state) : differ_state :=
  fold_left (fun st a => fetch_api a (session_get (api_url a)) st) l st.

(** *** [fetch_recent_episodes]: the notification *)

(** The text of one anime's field. *)
Definition anime_field_value (anime : episode_info) : string :=
  let field_value := "**Status:** " +:+ py_str (status anime) +:+ nl in
  let field_value :=
    if truthy (score anime)
    then field_value +:+ "**Score:** " +:+ py_str (score anime) +:+ "/10" +:+ nl
    else field_value in
  let field_value :=
    if truthy (episodes anime)
    then field_value +:+ "**Episodes:** " +:+ py_str (episodes anime) +:+ nl
    else field_value in
  let field_value :=
    field_value +:+ "**Synopsis:** " +:+ synopsis anime +:+ nl in
  field_value +:+ "[View on MAL](" +:+ py_str (url anime) +:+ ")".

(** The body of [for anime in new_episodes[:5]]. *)
Definition add_anime_field (e : embed) (anime : episode_info) : embed :=
  add_field e ("📺 " +:+ py_str (title anime)) (anime_field_value anime) false.

(** The embed built when [new_episodes] is not empty and a channel is
    set; [first] is [new_episodes[0]].  The [timestamp] of the embed, the
    time of the call, is left out. *)
Definition build_embed (first : episode_info) (new_episodes : list episode_info)
  : embed :=
  let e := Embed "🎉 New Anime Updates!" 65280
                 (Some "Recently updated anime from MyAnimeList") in
  let e := fold_left add_anime_field (firstn 5 new_episodes) e in
  let e :=
    if (5 <? length new_episodes)%nat
    then add_field e "And more..."
           (str_int (Z.of_nat (length new_episodes) - 5) +:+
            " additional anime updates!") false
    else e in
  let e := set_footer e "Powered by Jikan API (MyAnimeList)" in
  if truthy (image first) then set_thumbnail e (image first) else e.

(** What a pass leaves behind: the set, the list of new entries it
    computed, the embed handed to [notification_channel.send] (if any),
    and whether the pass returned ([true]) or [send] raised ([false]). *)
Record pass_result : Type := {
  pass_seen : gset string;
  pass_new : list episode_info;
  pass_sent : option (channel * embed);
  pass_returned : bool
}.

(** [fetch_recent_episodes()], over any list of endpoints. *)
Definition fetch_recent_episodes_from (l : list api)
  (session_get : string -> response) (send_ok : bool)
  (notification_channel : option channel) (seen : gset string)
  : pass_result :=
  let st := fetch_all l session_get
              {| last_seen_titles := seen; new_episodes := [] |} in
  match new_episodes st with
  | first :: _ =>
      match notification_channel with
      | Some ch =>
          {| pass_seen := last_seen_titles st;
             pass_new := new_episodes st;
             pass_sent := Some (ch, build_embed first (new_episodes st));
             pass_returned := send_ok |}
      | None =>
          {| pass_seen := last_seen_titles st;
             pass_new := new_episodes st;
             pass_sent := None;
             pass_returned := true |}
      end
  | [] =>
      {| pass_seen := last_seen_titles st;
         pass_new := [];
         pass_sent := None;
         pass_returned := true |}
  end.

Definition fetch_recent_episodes := fetch_recent_episodes_from apis.

(** *** The handlers and the loop task, as steps on the globals *)

Definition with_seen (g : Globals.t) (seen : gset string) : Globals.t :=
  {| Globals.check_task := Globals.check_task g;
     Globals.last_seen_titles := seen;
     Globals.notification_channel := Globals.notification_channel g;
     Globals.tasks := Globals.tasks g |}.

(** [test]: a pass run from the handler.  When [send] raises inside the
    pass, [on_command_error] answers instead of the last line. *)
Definition test (ctx : context) (session_get : string -> response)
  (send_ok : bool) (g : Globals.t) : Globals.t * list message :=
  let r := fetch_recent_episodes session_get send_ok
             (Globals.notification_channel g) (Globals.last_seen_titles g) in
  (with_seen g (pass_seen r),
   [Text "🔍 Testing API connection...";
    if pass_returned r
    then Text "✅ Test completed! Check console for results."
    else Text "❌ An error occurred while processing the command."]).

(** One pass of [check_loop] in task [t].  An exception in the initial
    check ends the task; in the [while] loop it is caught and the task
    goes on after the shorter wait. *)
Definition loop_pass (t : nat) (session_get : string -> response)
  (send_ok : bool) (g : Globals.t) : Globals.t :=
  let r := fetch_recent_episodes session_get send_ok
             (Globals.notification_channel g) (Globals.last_seen_titles g) in
  match Globals.tasks g !! t with
  | Some TaskInitial =>
      {| Globals.check_task := Globals.check_task g;
         Globals.last_seen_titles := pass_seen r;
         Globals.notification_channel := Globals.notification_channel g;
         Globals.tasks :=
           <[ t := if pass_returned r then TaskLooping else TaskDone ]>
             (Globals.tasks g) |}
  | Some TaskLooping => with_seen g (pass_seen r)
  | _ => g
  end.

(** What can happen to the bot: a command arrives, the loop task runs a
    pass, or a task ends. *)
Inductive event : Type :=
| CmdStart (ctx : context)
| CmdStop (ctx : context)
| CmdStatus (ctx : context)
| CmdSetChannel (ctx : context)
| CmdTest (ctx : context) (session_get : string -> response) (send_ok : bool)
| CmdClear (ctx : context)
| LoopPass (t : nat) (session_get : string -> response) (send_ok : bool)
| TaskExit (t : nat).

Definition step (ev : event) (g : Globals.t) : Globals.t :=
  match ev with
  | CmdStart ctx => fst (Commands.start ctx g)
  | CmdStop ctx => fst (Commands.stop ctx g)
  | CmdStatus ctx => fst (Commands.status ctx g)
  | CmdSetChannel ctx => fst (Commands.setchannel ctx g)
  | CmdTest ctx session_get send_ok => fst (test ctx session_get send_ok g)
  | CmdClear ctx => fst (Commands.clear ctx g)
  | LoopPass t session_get send_ok => loop_pass t session_get send_ok g
  | TaskExit t => task_exit t g
  end.

Definition run (evs : list event) (g : Globals.t) : Globals.t :=
  fold_left (fun g ev => step ev g) evs g.

(** *** Vocabulary of the statements *)

(** The identity under which an entry was registered: [unique_id] is
    made of the two values stored under ['mal_id'] and ['title_jp']. *)
Definition entry_identity (e : episode_info) : string :=
  unique_id (mal_id e) (title_jp e).

(** The identity the loop body computes for a raw entry (lines 73-78). *)
Definition anime_identity (anime : pyval) : result string :=
  title ← py_get anime "title" (PStr "Unknown Anime");
  mal_id ← py_get anime "mal_id" PNone;
  Ok (unique_id mal_id title).

(** The entry the loop body builds from a raw entry it accepts
    (lines 73-75 and 82-93). *)
Definition entry_of (anime : pyval) : result episode_info :=
  title ← py_get anime "title" (PStr "Unknown Anime");
  te ← py_get anime "title_english" PNone;
  mal_id ← py_get anime "mal_id" PNone;
  make_episode_info anime (py_or te title) title mal_id.

(** The Entry Differ: the loop of lines 72-96 run over a batch with an
    empty [new_episodes]; it gives the new-list and the updated set. *)
Definition entry_differ (batch : list pyval) (seen : gset string)
  : list episode_info * gset string :=
  let st := fst (for_anime batch
                   {| last_seen_titles := seen; new_episodes := [] |}) in
  (new_episodes st, last_seen_titles st).

(** Whether the loop over the batch runs to its end. *)
Definition differ_completes (batch : list pyval) (seen : gset string) : bool :=
  snd (for_anime batch {| last_seen_titles := seen; new_episodes := [] |}).

(** How many entries of a new-list carry the identity [uid]. *)
Definition count_identity (uid : string) (l : list episode_info) : nat :=
  length (List.filter (fun e => String.eqb (entry_identity e) uid) l).

(** How many raw entries of a batch carry the identity [uid]. *)
Definition has_identity (uid : string) (anime : pyval) : bool :=
  match anime_identity anime with
  | Ok u => String.eqb u uid
  | Raise => false
  end.

Definition count_raw (uid : string) (batch : list pyval) : nat :=
  length (List.filter (has_identity uid) batch).

(** A raw entry that has been surfaced: the loop body can build its
    entry, and the identity of that entry is in the set. *)
Definition seen_anime (seen : gset string) (anime : pyval) : bool :=
  match entry_of anime with
  | Ok e => bool_decide (entry_identity e ∈ seen)
  | Raise => false
  end.

(** The field of the embed that shows one entry in full. *)
Definition anime_field (anime : episode_info) : field :=
  {| field_name := "📺 " +:+ py_str (title anime);
     field_value := anime_field_value anime;
     field_inline := false |}.

(** A full-detail block, spelled out: the field named after the
    displayed title whose text has the status, the score out of 10 when
    the score is true in Python's sense, the number of episodes when it
    is, the summary, and the link. *)
Definition detail_field (anime : episode_info) : field :=
  {| field_name := "📺 " +:+ py_str (title anime);
     field_value :=
       "**Status:** " +:+ py_str (status anime) +:+ nl +:+
       (if truthy (score anime)
        then "**Score:** " +:+ py_str (score anime) +:+ "/10" +:+ nl
        else "") +:+
       (if truthy (episodes anime)
        then "**Episodes:** " +:+ py_str (episodes anime) +:+ nl
        else "") +:+
       "**Synopsis:** " +:+ synopsis anime +:+ nl +:+
       "[View on MAL](" +:+ py_str (url anime) +:+ ")";
     field_inline := false |}.

(** The line of a field that shows the score, and the one that shows
    the number of episodes. *)
Definition score_line (v : pyval) : string :=
  "**Score:** " +:+ py_str v +:+ "/10" +:+ nl.

Definition episodes_line (v : pyval) : string :=
  "**Episodes:** " +:+ py_str v +:+ nl.

(** [grows st st']: from [st] to [st'] entries were only appended and
    identities only added, one identity per appended entry, none of them
    known to [st] and no two of them equal. *)
Definition grows (st st' : differ_state) : Prop :=
  exists added,
    new_episodes st' = (new_episodes st ++ added)%list /\
    last_seen_titles st' =
      list_to_set (map entry_identity added) ∪ last_seen_titles st /\
    NoDup (map entry_identity added) /\
    Forall (fun e => entry_identity e ∉ last_seen_titles st) added.

(** The items the loop of an endpoint runs over, when the answer takes
    the pass that far: a status of 200, a body that is an object, and
    under the key a non-empty list, of which the first ten are kept. *)
Definition endpoint_items (a : api) (r : response) : option (list pyval) :=
  match r with
  | Response 200 (Ok (PDict data)) =>
      match dict_lookup data (api_key a) with
      | Some (PList (x :: l)) => Some (firstn 10 (x :: l))
      | _ => None
      end
  | _ => None
  end.

(** All the items of a pass, endpoint after endpoint. *)
Definition pass_items (l : list api) (session_get : string -> response)
  : list pyval :=
  concat (map (fun a => default [] (endpoint_items a (session_get (api_url a)))) l).

(** A raw entry the loop body can build an entry from. *)
Definition buildable (anime : pyval) : Prop :=
  exists e, entry_of anime = Ok e.

(** The events that empty the set, and those that set the channel. *)
Definition is_clear (ev : event) : bool :=
  match ev with CmdClear _ => true | _ => false end.

Definition sets_channel (ev : event) : bool :=
  match ev with CmdStart _ | CmdSetChannel _ => true | _ => false end.

(** The invariant behind the single flight: a task that is not done is
    the one [check_task] holds. *)
Definition single_flight (g : Globals.t) : Prop :=
  forall t, active g t = true -> Globals.check_task g = Some t.

(** *** The loop body *)

Lemma bind_Ok {A B} (r : result A) (k : A -> result B) (b : B) :
  (r ≫= k) = Ok b -> exists a, r = Ok a /\ k a = Ok b.
Proof. destruct r as [a|]; [exists a; auto | discriminate]. Qed.

Lemma process_anime_unfold anime st :
  process_anime anime st =
  match anime_identity anime with
  | Raise => Raise
  | Ok uid =>
      if bool_decide (uid ∉ last_seen_titles st) then
        match entry_of anime with
        | Ok e => Ok {| last_seen_titles := {[ uid ]} ∪ last_seen_titles st;
                        new_episodes := new_episodes st ++ [e] |}
        | Raise => Raise
        end
      else Ok st
  end.
Proof.
  destruct anime; reflexivity.
Qed.

Lemma make_episode_info_keys anime te t m e :
  make_episode_info anime te t m = Ok e ->
  title e = te /\ title_jp e = t /\ mal_id e = m.
Proof.
  unfold make_episode_info. intros H.
  repeat (apply bind_Ok in H; destruct H as (? & _ & H)).
  injection H as <-. auto.
Qed.

Lemma entry_of_identity anime e :
  entry_of anime = Ok e -> anime_identity anime = Ok (entry_identity e).
Proof.
  destruct anime; try discriminate.
  unfold entry_of, anime_identity; simpl. intros H.
  apply make_episode_info_keys in H as (_ & Ht & Hm).
  unfold entry_identity. rewrite Ht, Hm. reflexivity.
Qed.

(** What one turn of the loop does to the two objects. *)
Lemma process_anime_Ok anime st st' :
  process_anime anime st = Ok st' ->
  exists uid, anime_identity anime = Ok uid /\
    (((uid ∈ last_seen_titles st) /\ st' = st) \/
     ((uid ∉ last_seen_titles st) /\
      exists e, entry_of anime = Ok e /\ entry_identity e = uid /\
        st' = {| last_seen_titles := {[ uid ]} ∪ last_seen_titles st;
                 new_episodes := new_episodes st ++ [e] |})).
Proof.
  rewrite process_anime_unfold.
  destruct (anime_identity anime) as [uid|] eqn:Hid; [|discriminate].
  intros H. exists uid. split; [reflexivity|].
  case_bool_decide as Hin.
  - destruct (entry_of anime) as [e|] eqn:He; [|discriminate].
    right. split; [exact Hin|]. exists e.
    apply entry_of_identity in He. rewrite Hid in He.
    injection He as ->. injection H as <-. auto.
  - left. split; [|congruence].
    destruct (decide (uid ∈ last_seen_titles st)); tauto.
Qed.

(** An exception in the loop body depends on the set only. *)
Lemma process_anime_Raise anime st new0 :
  process_anime anime st = Raise ->
  process_anime anime
    {| last_seen_titles := last_seen_titles st; new_episodes := new0 |} = Raise.
Proof.
  rewrite !process_anime_unfold. simpl.
  destruct (anime_identity anime); [|reflexivity].
  case_bool_decide; [|discriminate].
  destruct (entry_of anime); [discriminate|reflexivity].
Qed.

(** An entry whose identity is in the set is skipped, whatever it holds. *)
Lemma process_anime_seen anime st uid :
  anime_identity anime = Ok uid -> uid ∈ last_seen_titles st ->
  process_anime anime st = Ok st.
Proof.
  intros Hid Hin. rewrite process_anime_unfold, Hid.
  case_bool_decide; [contradiction|reflexivity].
Qed.

(** *** [grows] is a preorder, and every turn of the loop obeys it *)

Lemma grows_refl st : grows st st.
Proof.
  exists []. rewrite app_nil_r. simpl.
  repeat split; [set_solver | constructor | constructor].
Qed.

Lemma grows_trans st1 st2 st3 : grows st1 st2 -> grows st2 st3 -> grows st1 st3.
Proof.
  intros (a1 & Hn1 & Hs1 & Hd1 & Hf1) (a2 & Hn2 & Hs2 & Hd2 & Hf2).
  exists (a1 ++ a2)%list. rewrite Hn2, Hn1, Hs2, Hs1, map_app, app_assoc.
  repeat split.
  - rewrite list_to_set_app_L. set_solver.
  - apply NoDup_app. repeat split; [exact Hd1| |exact Hd2].
    intros uid Hin1 Hin2.
    apply list_elem_of_fmap in Hin2 as (e & -> & He).
    rewrite Forall_forall in Hf2. apply (Hf2 e He).
    rewrite Hs1. set_solver.
  - apply Forall_app. split; [exact Hf1|].
    rewrite Forall_forall in Hf2 |- *. intros e He Hin.
    apply (Hf2 e He). rewrite Hs1. set_solver.
Qed.

Lemma grows_subseteq st st' :
  grows st st' -> last_seen_titles st ⊆ last_seen_titles st'.
Proof. intros (a & _ & -> & _). set_solver. Qed.

Lemma process_anime_grows anime st st' :
  process_anime anime st = Ok st' -> grows st st'.
Proof.
  intros H.
  apply process_anime_Ok in H as (uid & _ & [[_ ->] | [Hin (e & _ & <- & ->)]]).
  - apply grows_refl.
  - exists [e]. simpl. repeat split.
    + set_solver.
    + apply NoDup_singleton.
    + constructor; [exact Hin | constructor].
Qed.

Lemma for_anime_grows items : forall st, grows st (fst (for_anime items st)).
Proof.
  induction items as [|anime rest IH]; intros st; simpl.
  - apply grows_refl.
  - destruct (process_anime anime st) as [st'|] eqn:H; simpl.
    + eapply grows_trans; [eapply process_anime_grows, H | apply IH].
    + apply grows_refl.
Qed.

(** *** Running the loop again, and running it on fresh entries *)

(** A second run over the same items, from the set the first run left,
    changes nothing and stops where the first one stopped. *)
Lemma for_anime_rerun items :
  forall st st1 b new0,
    for_anime items st = (st1, b) ->
    for_anime items
      {| last_seen_titles := last_seen_titles st1; new_episodes := new0 |} =
    ({| last_seen_titles := last_seen_titles st1; new_episodes := new0 |}, b).
Proof.
  induction items as [|anime rest IH]; intros st st1 b new0; simpl.
  - intros [= <- <-]. reflexivity.
  - destruct (process_anime anime st) as [st'|] eqn:Hp.
    + intros Hrest.
      assert (Hsub : last_seen_titles st' ⊆ last_seen_titles st1).
      { pose proof (for_anime_grows rest st') as Hg.
        rewrite Hrest in Hg. apply (grows_subseteq _ _ Hg). }
      apply process_anime_Ok in Hp as (uid & Hid & Hcase).
      rewrite (process_anime_seen anime _ uid Hid).
      * eapply IH, Hrest.
      * simpl. destruct Hcase as [[Hin ->] | [_ (e & _ & _ & ->)]];
          simpl in Hsub; set_solver.
    + intros [= <- <-].
      rewrite (process_anime_Raise _ _ new0 Hp). reflexivity.
Qed.

(** When the loop ran to its end, every identity of the batch is in the
    set. *)
Lemma for_anime_registers items :
  forall st st1,
    for_anime items st = (st1, true) ->
    forall anime uid, anime ∈ items -> anime_identity anime = Ok uid ->
      uid ∈ last_seen_titles st1.
Proof.
  induction items as [|a rest IH]; intros st st1; simpl.
  - intros _ anime uid Hin. inversion Hin.
  - destruct (process_anime a st) as [st'|] eqn:Hp; [|discriminate].
    intros Hrest anime uid Hin Hid.
    apply elem_of_cons in Hin as [-> | Hin].
    + pose proof (for_anime_grows rest st') as Hg.
      rewrite Hrest in Hg. apply grows_subseteq in Hg.
      apply process_anime_Ok in Hp as (u & Hu & Hcase).
      rewrite Hid in Hu. injection Hu as <-.
      destruct Hcase as [[Hs ->] | [_ (e & _ & _ & ->)]];
        simpl in Hg; set_solver.
    + eapply IH; eauto.
Qed.

(** A batch of entries that can all be built is processed to its end. *)
Lemma for_anime_completes items :
  forall st,
    Forall (fun anime => exists e, entry_of anime = Ok e) items ->
    snd (for_anime items st) = true.
Proof.
  induction items as [|a rest IH]; intros st Hall; simpl; [reflexivity|].
  apply Forall_cons in Hall as [[e He] Hrest].
  rewrite process_anime_unfold.
  rewrite (entry_of_identity _ _ He), He.
  case_bool_decide; apply IH, Hrest.
Qed.

(** Entries of pairwise distinct identities, none of them in the set,
    are all accepted, in the order of the batch. *)
Lemma for_anime_fresh items :
  forall entries st,
    Forall2 (fun anime e => entry_of anime = Ok e) items entries ->
    NoDup (map entry_identity entries) ->
    Forall (fun e => entry_identity e ∉ last_seen_titles st) entries ->
    fst (for_anime items st) =
    {| last_seen_titles :=
         list_to_set (map entry_identity entries) ∪ last_seen_titles st;
       new_episodes := (new_episodes st ++ entries)%list |}.
Proof.
  induction items as [|a rest IH]; intros entries st Hall Hnd Hfresh.
  - inversion Hall; subst. simpl. rewrite app_nil_r.
    destruct st as [s n]; simpl. f_equal. set_solver.
  - inversion Hall as [|? e ? es He Hes]; subst. simpl in *.
    apply NoDup_cons in Hnd as [Hne Hnd].
    apply Forall_cons in Hfresh as [Hf Hfresh].
    rewrite process_anime_unfold, (entry_of_identity _ _ He), He.
    rewrite bool_decide_true by exact Hf.
    rewrite (IH es); simpl.
    + f_equal; [set_solver | rewrite <- app_assoc; reflexivity].
    + exact Hes.
    + exact Hnd.
    + rewrite Forall_forall in Hfresh |- *. intros x Hx.
      assert (entry_identity x ≠ entry_identity e).
      { intros Heq. apply Hne. rewrite <- Heq.
        apply list_elem_of_fmap. eauto. }
      specialize (Hfresh x Hx). set_solver.
Qed.

(** *** Counting the entries of one identity *)

Lemma count_identity_cons uid e l :
  count_identity uid (e :: l) =
  ((if String.eqb (entry_identity e) uid then 1 else 0) + count_identity uid l)%nat.
Proof.
  unfold count_identity. simpl.
  destruct (String.eqb (entry_identity e) uid); reflexivity.
Qed.

Lemma count_identity_absent uid l :
  uid ∉ map entry_identity l -> count_identity uid l = 0%nat.
Proof.
  induction l as [|e l IH]; intros Hnot; [reflexivity|].
  rewrite count_identity_cons. simpl in Hnot.
  apply not_elem_of_cons in Hnot as [Hne Hnot].
  rewrite (IH Hnot).
  destruct (String.eqb_spec (entry_identity e) uid); [congruence|reflexivity].
Qed.

Lemma count_identity_present uid l :
  uid ∈ map entry_identity l -> (1 <= count_identity uid l)%nat.
Proof.
  induction l as [|e l IH]; intros Hin; [inversion Hin|].
  rewrite count_identity_cons. simpl in Hin.
  destruct (String.eqb_spec (entry_identity e) uid) as [|Hne]; [lia|].
  apply elem_of_cons in Hin as [Heq | Hin]; [congruence|].
  specialize (IH Hin). lia.
Qed.

(** No two entries of a list without repeated identities share one. *)
Lemma count_identity_NoDup uid l :
  NoDup (map entry_identity l) -> (count_identity uid l <= 1)%nat.
Proof.
  induction l as [|e l IH]; intros Hnd; [unfold count_identity; simpl; lia|].
  simpl in Hnd. apply NoDup_cons in Hnd as [Hne Hnd].
  rewrite count_identity_cons.
  destruct (String.eqb_spec (entry_identity e) uid) as [Heq|].
  - rewrite count_identity_absent; [lia | congruence].
  - specialize (IH Hnd). lia.
Qed.

Lemma entry_differ_grows batch seen :
  NoDup (map entry_identity (fst (entry_differ batch seen))) /\
  Forall (fun e => entry_identity e ∉ seen) (fst (entry_differ batch seen)) /\
  snd (entry_differ batch seen) =
    list_to_set (map entry_identity (fst (entry_differ batch seen))) ∪ seen.
Proof.
  unfold entry_differ. simpl.
  destruct (for_anime_grows batch
              {| last_seen_titles := seen; new_episodes := [] |})
    as (added & Hn & Hs & Hd & Hf).
  simpl in *. rewrite Hn, Hs. auto.
Qed.

Lemma count_raw_present uid batch :
  (1 <= count_raw uid batch)%nat ->
  exists anime, anime ∈ batch /\ anime_identity anime = Ok uid.
Proof.
  unfold count_raw. induction batch as [|a rest IH]; simpl; [lia|].
  destruct (has_identity uid a) eqn:Ha.
  - intros _. exists a. split; [left|].
    unfold has_identity in Ha. destruct (anime_identity a) as [u|]; [|discriminate].
    apply String.eqb_eq in Ha. congruence.
  - intros H. destruct (IH H) as (x & Hx & Hid). exists x. split; [right|]; assumption.
Qed.

(** *** The Entry Differ *)

(** C1 (dedup idempotence). For a raw batch that yields at least one new
    entry, running the Entry Differ twice in succession against the same
    Dedup Store gives a non-empty new-list the first time and an empty
    one the second time; the second run leaves the store as the first
    one left it.  The batch is any list of raw entries, well formed or
    not, and so in particular the [anime_list[:10]] of an endpoint. *)
Theorem differ_twice_in_succession (batch : list pyval) (seen : gset string) :
  fst (entry_differ batch seen) <> [] ->
  fst (entry_differ batch seen) <> [] /\
  fst (entry_differ batch (snd (entry_differ batch seen))) = [] /\
  snd (entry_differ batch (snd (entry_differ batch seen))) =
    snd (entry_differ batch seen).
Proof.
  intros Hnew. split; [exact Hnew|].
  clear Hnew. unfold entry_differ.
  destruct (for_anime batch {| last_seen_titles := seen; new_episodes := [] |})
    as [st1 b] eqn:Hrun.
  cbn [fst snd].
  rewrite (for_anime_rerun batch _ st1 b [] Hrun). auto.
Qed.

(** C2 (intra-batch dedup), as the code has it.  The loop body inserts
    the identity of an entry in the same turn in which it appends the
    entry.  Hence no identity appears twice in a new-list, whatever the
    batch and the store; and an identity carried by some raw entry of the
    batch appears exactly once when it was not in the store before and
    the loop ran to the end of the batch. *)
Theorem intra_batch_dedup (batch : list pyval) (seen : gset string)
  (uid : string) :
  (forall anime st st',
      process_anime anime st = Ok st' ->
      st' = st \/
      exists e, (entry_identity e ∉ last_seen_titles st) /\
        new_episodes st' = (new_episodes st ++ [e])%list /\
        last_seen_titles st' = {[ entry_identity e ]} ∪ last_seen_titles st) /\
  (count_identity uid (fst (entry_differ batch seen)) <= 1)%nat /\
  ((1 <= count_raw uid batch)%nat ->
   uid ∉ seen ->
   differ_completes batch seen = true ->
   count_identity uid (fst (entry_differ batch seen)) = 1%nat).
Proof.
  destruct (entry_differ_grows batch seen) as (Hnd & Hfresh & Hseen).
  split; [|split].
  - intros anime st st' Hp.
    apply process_anime_Ok in Hp as (u & _ & [[_ ->] | [Hin (e & _ & <- & ->)]]);
      [left; reflexivity | right; exists e; auto].
  - apply count_identity_NoDup, Hnd.
  - intros Hraw Hnot Hdone.
    apply count_raw_present in Hraw as (anime & Hin & Hid).
    assert (Hreg : uid ∈ snd (entry_differ batch seen)).
    { unfold entry_differ, differ_completes in *. simpl.
      destruct (for_anime batch _) as [st1 b] eqn:Hrun. simpl in *. subst b.
      eapply for_anime_registers; eauto. }
    rewrite Hseen in Hreg.
    apply elem_of_union in Hreg as [Hreg | Hreg]; [|contradiction].
    apply elem_of_list_to_set in Hreg.
    pose proof (count_identity_present _ _ Hreg).
    pose proof (count_identity_NoDup uid _ Hnd). lia.
Qed.

(** *** One endpoint, all endpoints, the pass *)

Lemma fetch_api_grows a r st : grows st (fetch_api a r st).
Proof.
  unfold fetch_api.
  destruct r as [| |status json]; try apply grows_refl.
  destruct (negb (status =? 200)%Z); [apply grows_refl|].
  destruct json as [data|]; [|apply grows_refl].
  destruct (py_get data (api_key a) (PList [])) as [anime_list|];
    [|apply grows_refl].
  destruct (negb (truthy anime_list)); [apply grows_refl|].
  destruct (sl ← py_slice anime_list 10; py_iter sl) as [items|];
    [apply for_anime_grows | apply grows_refl].
Qed.

Lemma fetch_all_grows l session_get : forall st, grows st (fetch_all l session_get st).
Proof.
  unfold fetch_all. induction l as [|a l IH]; intros st; simpl.
  - apply grows_refl.
  - eapply grows_trans; [apply fetch_api_grows | apply IH].
Qed.

(** A failed endpoint leaves the two objects as they were. *)
Lemma fetch_api_failed a r st :
  endpoint_failed r = true -> fetch_api a r st = st.
Proof.
  destruct r as [| |status json]; simpl; try reflexivity.
  intros H. destruct (Z.eqb_spec status 200) as [->|]; [discriminate|reflexivity].
Qed.

Lemma fetch_all_app l1 l2 session_get st :
  fetch_all (l1 ++ l2) session_get st =
  fetch_all l2 session_get (fetch_all l1 session_get st).
Proof. unfold fetch_all. apply fold_left_app. Qed.

Lemma fetch_all_failed l1 a l2 session_get st :
  endpoint_failed (session_get (api_url a)) = true ->
  fetch_all (l1 ++ a :: l2) session_get st = fetch_all (l1 ++ l2) session_get st.
Proof.
  intros H. rewrite !fetch_all_app. unfold fetch_all at 1. simpl.
  rewrite (fetch_api_failed _ _ _ H). reflexivity.
Qed.

(** The set and the list a pass leaves are those of the loop over the
    endpoints, whatever happens to the notification. *)
Lemma pass_state l session_get send_ok ch seen :
  let st := fetch_all l session_get
              {| last_seen_titles := seen; new_episodes := [] |} in
  pass_seen (fetch_recent_episodes_from l session_get send_ok ch seen) =
    last_seen_titles st /\
  pass_new (fetch_recent_episodes_from l session_get send_ok ch seen) =
    new_episodes st.
Proof.
  unfold fetch_recent_episodes_from. simpl.
  destruct (new_episodes (fetch_all l session_get _)) as [|first rest] eqn:Hn;
    [|destruct ch]; simpl; rewrite ?Hn; auto.
Qed.

Lemma pass_grows l session_get send_ok ch seen :
  let r := fetch_recent_episodes_from l session_get send_ok ch seen in
  NoDup (map entry_identity (pass_new r)) /\
  Forall (fun e => entry_identity e ∉ seen) (pass_new r) /\
  pass_seen r = list_to_set (map entry_identity (pass_new r)) ∪ seen.
Proof.
  intros r. subst r.
  destruct (pass_state l session_get send_ok ch seen) as [-> ->].
  destruct (fetch_all_grows l session_get
              {| last_seen_titles := seen; new_episodes := [] |})
    as (added & Hn & Hs & Hd & Hf).
  simpl in *. rewrite Hn, Hs. auto.
Qed.

(** C6 (fault isolation).  When an endpoint fails with a timeout, a
    transport error or a status outside 200..299, the pass is the pass
    over the other endpoints: it returns as that one does, the failed
    endpoint adds nothing to the new-list nor to the store, and what the
    other endpoints give is all there.  For the two endpoints A and B of
    the bot, with A failing, the new-list is the one B gives alone. *)
Theorem fault_isolation (l1 l2 : list api) (a : api)
  (session_get : string -> response) (send_ok : bool)
  (ch : option channel) (seen : gset string) :
  endpoint_failed (session_get (api_url a)) = true ->
  fetch_recent_episodes_from (l1 ++ a :: l2) session_get send_ok ch seen =
    fetch_recent_episodes_from (l1 ++ l2) session_get send_ok ch seen /\
  pass_new (fetch_recent_episodes_from (l1 ++ a :: l2)
              session_get send_ok ch seen) =
    new_episodes (fetch_all (l1 ++ l2) session_get
                    {| last_seen_titles := seen; new_episodes := [] |}).
Proof.
  intros Hfail. split.
  - unfold fetch_recent_episodes_from.
    rewrite (fetch_all_failed _ _ _ _ _ Hfail). reflexivity.
  - destruct (pass_state (l1 ++ a :: l2) session_get send_ok ch seen) as [_ ->].
    rewrite (fetch_all_failed _ _ _ _ _ Hfail). reflexivity.
Qed.

(** C3 (seen regardless of delivery).  The store and the new-list a pass
    computes do not depend on whether a channel is set nor on whether the
    delivery succeeds; every entry of the new-list has its identity in
    the store the pass leaves, which holds all that the store held
    before; and no later pass from that store, whatever the endpoints
    answer then, gives an entry of one of those identities again. *)
Theorem seen_regardless_of_delivery (session_get : string -> response)
  (send_ok : bool) (ch : option channel) (seen : gset string) :
  let r := fetch_recent_episodes session_get send_ok ch seen in
  (pass_seen r = pass_seen (fetch_recent_episodes session_get true None seen) /\
   pass_new r = pass_new (fetch_recent_episodes session_get true None seen)) /\
  (forall e, e ∈ pass_new r -> entry_identity e ∈ pass_seen r) /\
  seen ⊆ pass_seen r /\
  (forall session_get' send_ok' ch' e e',
      e ∈ pass_new r ->
      e' ∈ pass_new (fetch_recent_episodes session_get' send_ok' ch' (pass_seen r)) ->
      entry_identity e' <> entry_identity e).
Proof.
  intros r. subst r. unfold fetch_recent_episodes.
  pose proof (pass_grows apis session_get send_ok ch seen) as (Hnd & Hf & Hs).
  simpl in Hnd, Hf, Hs.
  assert (Hreg : forall e,
    e ∈ pass_new (fetch_recent_episodes_from apis session_get send_ok ch seen) ->
    entry_identity e ∈
      pass_seen (fetch_recent_episodes_from apis session_get send_ok ch seen)).
  { intros e He. rewrite Hs. apply elem_of_union_l, elem_of_list_to_set.
    apply list_elem_of_fmap. eauto. }
  repeat split.
  - destruct (pass_state apis session_get send_ok ch seen) as [-> _].
    destruct (pass_state apis session_get true None seen) as [-> _]. reflexivity.
  - destruct (pass_state apis session_get send_ok ch seen) as [_ ->].
    destruct (pass_state apis session_get true None seen) as [_ ->]. reflexivity.
  - exact Hreg.
  - rewrite Hs. set_solver.
  - intros sg' ok' ch' e e' He He' Heq.
    pose proof (pass_grows apis sg' ok' ch'
      (pass_seen (fetch_recent_episodes_from apis session_get send_ok ch seen)))
      as (_ & Hf' & _).
    simpl in Hf'. rewrite Forall_forall in Hf'.
    apply (Hf' e' He'). rewrite Heq. apply Hreg, He.
Qed.

(** *** After [clear] *)

(** A batch whose identities are all in the set goes through the loop
    without a change. *)
Lemma for_anime_all_seen items :
  forall st,
    Forall (fun anime => exists uid,
              anime_identity anime = Ok uid /\ uid ∈ last_seen_titles st) items ->
    for_anime items st = (st, true).
Proof.
  induction items as [|a rest IH]; intros st Hall; simpl; [reflexivity|].
  apply Forall_cons in Hall as [(uid & Hid & Hin) Hrest].
  rewrite (process_anime_seen _ _ _ Hid Hin). apply IH, Hrest.
Qed.

Lemma seen_anime_true seen anime :
  seen_anime seen anime = true ->
  exists e, entry_of anime = Ok e /\ entry_identity e ∈ seen.
Proof.
  unfold seen_anime. destruct (entry_of anime) as [e|]; [|discriminate].
  intros H. apply bool_decide_eq_true in H. eauto.
Qed.

(** C5 (clear resets exposure).  [clear] reports the number of
    identities the store held, and leaves it empty, of size 0.  For a
    previously-seen batch (every raw entry of it has been surfaced: its
    entry can be built and its identity is in the store), the differ
    gave nothing new before the [clear], and the very next pass over it
    after the [clear] returns every entry of the batch as new again: each
    raw entry has an entry of its identity in the new-list, and when the
    identities of the batch are pairwise distinct the new-list is the
    whole batch, in order. *)
Theorem clear_resets_exposure (ctx : context) (g : Globals.t)
  (batch : list pyval) :
  Forall (fun anime => seen_anime (Globals.last_seen_titles g) anime = true)
    batch ->
  snd (Commands.clear ctx g) =
    [Text ("🗑️ Cleared " +:+
           str_int (Z.of_nat (size (Globals.last_seen_titles g))) +:+
           " tracked anime from cache. Next check will show all current anime as 'new'.")] /\
  size (Globals.last_seen_titles (fst (Commands.clear ctx g))) = 0%nat /\
  fst (entry_differ batch (Globals.last_seen_titles g)) = [] /\
  (forall anime, anime ∈ batch ->
     exists e,
       e ∈ fst (entry_differ batch
                  (Globals.last_seen_titles (fst (Commands.clear ctx g)))) /\
       anime_identity anime = Ok (entry_identity e)) /\
  (exists entries, Forall2 (fun anime e => entry_of anime = Ok e) batch entries) /\
  (forall entries,
     Forall2 (fun anime e => entry_of anime = Ok e) batch entries ->
     NoDup (map entry_identity entries) ->
     fst (entry_differ batch
            (Globals.last_seen_titles (fst (Commands.clear ctx g)))) = entries).
Proof.
  intros Hseen. simpl.
  assert (Hbuilt : Forall (fun anime => exists e, entry_of anime = Ok e) batch).
  { eapply Forall_impl; [exact Hseen|]. intros a Ha.
    apply seen_anime_true in Ha as (e & He & _). eauto. }
  split; [reflexivity|]. split; [exact (size_empty (C := gset string))|]. split; [|split; [|split]].
  - unfold entry_differ. rewrite for_anime_all_seen; [reflexivity|].
    eapply Forall_impl; [exact Hseen|]. intros a Ha. simpl.
    apply seen_anime_true in Ha as (e & He & Hin).
    exists (entry_identity e). split; [apply entry_of_identity, He | exact Hin].
  - intros anime Hin.
    rewrite Forall_forall in Hbuilt. destruct (Hbuilt anime Hin) as [e0 He0].
    apply entry_of_identity in He0.
    destruct (entry_differ_grows batch ∅) as (_ & _ & Hs).
    assert (Hreg : entry_identity e0 ∈ snd (entry_differ batch ∅)).
    { unfold entry_differ. simpl.
      pose proof (for_anime_completes batch
        {| last_seen_titles := ∅; new_episodes := [] |}
        (proj2 (Forall_forall _ _) Hbuilt)) as Hdone.
      destruct (for_anime batch _) as [st1 b] eqn:Hrun. simpl in *. subst b.
      eapply for_anime_registers; eauto. }
    rewrite Hs in Hreg.
    apply elem_of_union in Hreg as [Hreg | Hreg]; [|set_solver].
    apply elem_of_list_to_set, list_elem_of_fmap in Hreg as (e & Heq & He).
    exists e. split; [exact He | congruence].
  - clear Hseen. induction batch as [|a rest IH].
    + exists []. constructor.
    + apply Forall_cons in Hbuilt as [[e He] Hrest].
      destruct (IH Hrest) as [es Hes]. exists (e :: es). constructor; assumption.
  - intros entries Hall Hnd. unfold entry_differ.
    rewrite (for_anime_fresh batch entries); simpl; auto.
    apply Forall_forall. intros x _. set_solver.
Qed.

(** *** The single flight of [start] *)

Lemma active_tasks_spec g t : t ∈ active_tasks g <-> active g t = true.
Proof.
  unfold active_tasks. rewrite list_elem_of_filter, elem_of_seq.
  split; [tauto|]. intros H. split; [exact H|].
  unfold active in H. destruct (Globals.tasks g !! t) eqn:Hl; [|discriminate].
  apply lookup_lt_Some in Hl. lia.
Qed.

Lemma active_tasks_NoDup g : NoDup (active_tasks g).
Proof. unfold active_tasks. apply NoDup_filter, NoDup_seq. Qed.

Lemma single_flight_at_most_one g :
  single_flight g -> (length (active_tasks g) <= 1)%nat.
Proof.
  intros Hsf. pose proof (active_tasks_NoDup g) as Hnd.
  assert (Hall : forall t, t ∈ active_tasks g -> Globals.check_task g = Some t)
    by (intros t Ht; apply Hsf, active_tasks_spec, Ht).
  destruct (active_tasks g) as [|x [|y l]]; simpl; try lia.
  assert (x = y).
  { pose proof (Hall x ltac:(left)) as Hx.
    pose proof (Hall y ltac:(right; left)) as Hy. congruence. }
  subst y. apply NoDup_cons in Hnd as [Hx _]. exfalso. apply Hx. left.
Qed.

Lemma single_flight_running g :
  single_flight g -> running g = true -> length (active_tasks g) = 1%nat.
Proof.
  intros Hsf Hrun. pose proof (single_flight_at_most_one g Hsf) as Hle.
  unfold running in Hrun. destruct (Globals.check_task g) as [t|]; [|discriminate].
  apply active_tasks_spec in Hrun.
  destruct (active_tasks g); [inversion Hrun | simpl in *; lia].
Qed.

Lemma single_flight_initial : single_flight initial.
Proof. intros t H. unfold active in H. simpl in H. discriminate. Qed.

(** Putting a state at the place of a task changes the other tasks'
    states in nothing. *)
Lemma active_insert g g' t s :
  Globals.tasks g' = <[ t := s ]> (Globals.tasks g) ->
  Globals.check_task g' = Globals.check_task g ->
  active g t = true ->
  single_flight g -> single_flight g'.
Proof.
  intros Htasks Hcheck Hact Hsf t' Ht'. rewrite Hcheck.
  destruct (decide (t' = t)) as [->|Hne]; [apply Hsf, Hact|].
  apply Hsf. unfold active in *. rewrite Htasks in Ht'.
  rewrite list_lookup_insert_ne in Ht' by congruence. exact Ht'.
Qed.

Lemma start_single_flight ctx g :
  single_flight g -> single_flight (fst (Commands.start ctx g)).
Proof.
  intros Hsf. unfold Commands.start.
  destruct (running g) eqn:Hrun; simpl; [exact Hsf|].
  intros t Ht. unfold active in Ht. simpl in *.
  destruct (decide (t < length (Globals.tasks g))%nat) as [Hlt|Hge].
  - rewrite lookup_app_l in Ht by exact Hlt.
    pose proof (Hsf t Ht) as Hc. unfold running in Hrun. rewrite Hc in Hrun.
    unfold active in Hrun. congruence.
  - destruct (decide (t = length (Globals.tasks g))) as [->|Hne]; [reflexivity|].
    rewrite lookup_ge_None_2 in Ht; [discriminate|].
    rewrite length_app. simpl. lia.
Qed.

Lemma stop_single_flight ctx g :
  single_flight g -> single_flight (fst (Commands.stop ctx g)).
Proof.
  intros Hsf. unfold Commands.stop.
  destruct (Globals.check_task g) as [t|] eqn:Hc; [|exact Hsf].
  destruct (active g t) eqn:Hact; [|exact Hsf].
  simpl. eapply (active_insert g _ t TaskCancelling); eauto.
Qed.

Lemma task_exit_single_flight t g :
  single_flight g -> single_flight (task_exit t g).
Proof.
  intros Hsf t' Ht'. unfold task_exit, active in *. simpl in *.
  destruct (decide (t' = t)) as [->|Hne].
  - destruct (decide (t < length (Globals.tasks g))%nat) as [Hlt|Hge].
    + rewrite list_lookup_insert_eq in Ht' by exact Hlt. discriminate.
    + rewrite list_insert_ge in Ht' by lia. apply Hsf, Ht'.
  - rewrite list_lookup_insert_ne in Ht' by congruence. apply Hsf, Ht'.
Qed.

Lemma loop_pass_single_flight t session_get send_ok g :
  single_flight g -> single_flight (loop_pass t session_get send_ok g).
Proof.
  intros Hsf. unfold loop_pass.
  destruct (Globals.tasks g !! t) as [[| | |]|] eqn:Hl; try exact Hsf.
  eapply (active_insert g _ t); simpl; eauto.
  unfold active. rewrite Hl. reflexivity.
Qed.

Lemma step_single_flight ev g : single_flight g -> single_flight (step ev g).
Proof.
  intros Hsf. destruct ev; simpl;
    auto using start_single_flight, stop_single_flight,
               task_exit_single_flight, loop_pass_single_flight.
Qed.

Lemma run_single_flight evs : forall g, single_flight g -> single_flight (run evs g).
Proof.
  unfold run. induction evs as [|ev evs IH]; intros g Hsf; simpl; [exact Hsf|].
  apply IH, step_single_flight, Hsf.
Qed.

Lemma start_running ctx g : running (fst (Commands.start ctx g)) = true.
Proof.
  unfold Commands.start. destruct (running g) eqn:Hrun; simpl; [exact Hrun|].
  unfold running, active. simpl.
  rewrite lookup_app_r by lia. rewrite Nat.sub_diag. reflexivity.
Qed.

(** C4 (single-flight start).  In every state the bot can reach, by any
    sequence of commands, passes of the loop and ends of tasks: at most
    one loop task exists that is not done; a [start] that finds a task
    not done answers that the checker is already running and changes
    nothing, so it creates no task; and after two [start]s in a row
    exactly one task is not done, the second [start] having only
    answered. *)
Theorem start_is_single_flight (evs : list event) (ctx1 ctx2 : context) :
  let g := run evs initial in
  let g1 := fst (Commands.start ctx1 g) in
  (length (active_tasks g) <= 1)%nat /\
  (running g = true ->
   Commands.start ctx1 g = (g, [Text "❌ Anime checker is already running!"])) /\
  Commands.start ctx2 g1 = (g1, [Text "❌ Anime checker is already running!"]) /\
  length (active_tasks (fst (Commands.start ctx2 g1))) = 1%nat /\
  length (Globals.tasks (fst (Commands.start ctx2 g1))) = length (Globals.tasks g1).
Proof.
  intros g g1.
  assert (Hsf : single_flight g) by apply run_single_flight, single_flight_initial.
  assert (Hsf1 : single_flight g1) by apply start_single_flight, Hsf.
  assert (Hrun1 : running g1 = true) by apply start_running.
  assert (Hsecond : Commands.start ctx2 g1 =
                    (g1, [Text "❌ Anime checker is already running!"])).
  { unfold Commands.start at 1. rewrite Hrun1. reflexivity. }
  split; [apply single_flight_at_most_one, Hsf|].
  split; [intros Hrun; unfold Commands.start; rewrite Hrun; reflexivity|].
  split; [exact Hsecond|]. rewrite Hsecond. simpl.
  split; [apply single_flight_running; assumption | reflexivity].
Qed.

(** *** Strings: slices and occurrences *)

Lemma append_cons (c : ascii) (s1 s2 : string) :
  String c s1 +:+ s2 = String c (s1 +:+ s2).
Proof. reflexivity. Qed.

Lemma append_assoc (s1 s2 s3 : string) :
  (s1 +:+ s2) +:+ s3 = s1 +:+ (s2 +:+ s3).
Proof.
  induction s1 as [|c s1 IH]; [reflexivity|].
  rewrite !append_cons, IH. reflexivity.
Qed.

Lemma substring_min (s : string) :
  forall n, substring 0 (Nat.min n (String.length s)) s = substring 0 n s.
Proof.
  induction s as [|c s IH]; intros [|n]; simpl; try reflexivity.
  rewrite IH. reflexivity.
Qed.

Lemma substring_length (s : string) :
  forall n, String.length (substring 0 n s) = Nat.min n (String.length s).
Proof.
  induction s as [|c s IH]; intros [|n]; simpl; try reflexivity.
  rewrite IH. reflexivity.
Qed.

(** [s[:n]] is the beginning of [s]. *)
Lemma substring_prefix (s : string) :
  forall n, exists rest, s = substring 0 n s +:+ rest.
Proof.
  induction s as [|c s IH]; intros [|n]; simpl.
  - exists "". reflexivity.
  - exists "". reflexivity.
  - exists (String c s). reflexivity.
  - destruct (IH n) as [rest Hrest]. exists rest.
    rewrite append_cons, <- Hrest. reflexivity.
Qed.

Lemma prefix_append (n post : string) : String.prefix n (n +:+ post) = true.
Proof.
  induction n as [|c n IH]; [destruct post; reflexivity|].
  rewrite append_cons. simpl.
  destruct (ascii_dec c c); [exact IH | congruence].
Qed.

(** [contains] finds every occurrence. *)
Lemma contains_infix (n pre post : string) :
  contains n (pre +:+ n +:+ post) = true.
Proof.
  induction pre as [|c pre IH].
  - change ("" +:+ n +:+ post) with (n +:+ post).
    pose proof (prefix_append n post) as H.
    destruct (n +:+ post); cbn [contains]; [exact H | rewrite H; reflexivity].
  - rewrite append_cons. simpl. rewrite IH. apply orb_true_r.
Qed.

(** *** The summary *)

Lemma synopsis_of_str d s :
  dict_lookup d "synopsis" = Some (PStr s) -> s <> "" ->
  synopsis_of (PDict d) = Ok (substring 0 200 s +:+ "...").
Proof.
  intros Hl Hne. unfold synopsis_of. simpl. rewrite Hl. simpl.
  destruct (String.eqb_spec s ""); [contradiction|reflexivity].
Qed.

Lemma make_episode_info_fields anime te t m e :
  make_episode_info anime te t m = Ok e ->
  synopsis_of anime = Ok (synopsis e) /\
  py_get anime "score" PNone = Ok (score e) /\
  py_get anime "episodes" PNone = Ok (episodes e).
Proof.
  destruct anime; try discriminate.
  unfold make_episode_info. simpl. intros H.
  repeat (apply bind_Ok in H; destruct H as (? & ? & H)).
  injection H as <-. simpl. auto.
Qed.

(** C10 (the summary, case by case).  For a raw entry whose synopsis is a
    non-empty string the summary is the first min(200, length) characters
    of it followed by ['...'], also when nothing was cut; when the
    synopsis is missing, null or the empty string the summary is the
    placeholder, with no ellipsis.  The summary is what the entry built
    from the raw entry stores under ['synopsis']. *)
Theorem synopsis_summary (d : list (string * pyval)) :
  (forall s, dict_lookup d "synopsis" = Some (PStr s) -> s <> "" ->
     synopsis_of (PDict d) =
       Ok (substring 0 (Nat.min 200 (String.length s)) s +:+ "...")) /\
  (dict_lookup d "synopsis" = None \/
   dict_lookup d "synopsis" = Some PNone \/
   dict_lookup d "synopsis" = Some (PStr "") ->
     synopsis_of (PDict d) = Ok "No synopsis available") /\
  (forall te t m e, make_episode_info (PDict d) te t m = Ok e ->
     synopsis_of (PDict d) = Ok (synopsis e)).
Proof.
  split; [|split].
  - intros s Hl Hne. rewrite substring_min. apply synopsis_of_str; assumption.
  - unfold synopsis_of. simpl. intros [-> | [-> | ->]]; reflexivity.
  - intros te t m e H. apply (make_episode_info_fields _ _ _ _ _ H).
Qed.

Lemma anime_field_value_unfold e :
  anime_field_value e =
  ("**Status:** " +:+ py_str (status e) +:+ nl) +:+
  (if truthy (score e) then score_line (score e) else "") +:+
  (if truthy (episodes e) then episodes_line (episodes e) else "") +:+
  ("**Synopsis:** " +:+ synopsis e +:+ nl) +:+
  "[View on MAL](" +:+ py_str (url e) +:+ ")".
Proof.
  unfold anime_field_value, score_line, episodes_line.
  destruct (truthy (score e)), (truthy (episodes e));
    rewrite ?append_assoc; reflexivity.
Qed.

Lemma anime_field_value_synopsis e :
  exists pre post,
    anime_field_value e =
    pre +:+ "**Synopsis:** " +:+ synopsis e +:+ nl +:+ post.
Proof.
  rewrite anime_field_value_unfold.
  exists (("**Status:** " +:+ py_str (status e) +:+ nl) +:+
          (if truthy (score e) then score_line (score e) else "") +:+
          (if truthy (episodes e) then episodes_line (episodes e) else "")),
         ("[View on MAL](" +:+ py_str (url e) +:+ ")").
  rewrite !append_assoc. reflexivity.
Qed.

(** C7 (truncation).  The entry built from a raw entry whose synopsis is
    a string of 500 characters has for summary the first 200 characters
    of the synopsis followed by ['...'], and its field in the notification
    shows that text on the synopsis line. *)
Theorem truncation_of_long_synopsis (d : list (string * pyval)) (s : string)
  (te t m : pyval) (e : episode_info) :
  dict_lookup d "synopsis" = Some (PStr s) ->
  String.length s = 500%nat ->
  make_episode_info (PDict d) te t m = Ok e ->
  synopsis e = substring 0 200 s +:+ "..." /\
  String.length (substring 0 200 s) = 200%nat /\
  (exists rest, s = substring 0 200 s +:+ rest) /\
  (exists pre post,
     anime_field_value e =
     pre +:+ "**Synopsis:** " +:+ (substring 0 200 s +:+ "...") +:+ nl +:+ post).
Proof.
  intros Hl Hlen He.
  assert (Hne : s <> "") by (intros ->; discriminate).
  assert (Hsyn : synopsis e = substring 0 200 s +:+ "...").
  { apply make_episode_info_fields in He as (Hs & _).
    rewrite (synopsis_of_str d s Hl Hne) in Hs. congruence. }
  split; [exact Hsyn|]. split; [rewrite substring_length, Hlen; reflexivity|].
  split; [apply substring_prefix|].
  rewrite <- Hsyn. apply anime_field_value_synopsis.
Qed.

(** *** The fields of the notification *)

Lemma fold_add_anime_field l :
  forall e,
    embed_fields (fold_left add_anime_field l e) =
    (embed_fields e ++ map anime_field l)%list.
Proof.
  induction l as [|a l IH]; intros e; simpl.
  - rewrite app_nil_r. reflexivity.
  - rewrite IH. simpl. rewrite <- app_assoc. reflexivity.
Qed.

Lemma build_embed_fields first new :
  embed_fields (build_embed first new) =
  (map anime_field (firstn 5 new) ++
   if (5 <? length new)%nat
   then [ {| field_name := "And more...";
             field_value := str_int (Z.of_nat (length new) - 5) +:+
                            " additional anime updates!";
             field_inline := false |} ]
   else [])%list.
Proof.
  unfold build_embed.
  destruct (truthy (image first)); simpl;
    destruct (5 <? length new)%nat; simpl;
    rewrite fold_add_anime_field; simpl; rewrite ?app_nil_r; reflexivity.
Qed.

Lemma anime_field_detail e : anime_field e = detail_field e.
Proof.
  unfold anime_field, detail_field. f_equal.
  rewrite anime_field_value_unfold. unfold score_line, episodes_line.
  destruct (truthy (score e)), (truthy (episodes e));
    rewrite ?append_assoc; reflexivity.
Qed.

(** C8 (notification cap).  With a channel set and a non-empty new-list,
    the pass hands to the channel one embed.  When the new-list holds
    more than 5 entries its fields are the full-detail blocks of the
    first 5 entries, in order, followed by one field that only counts
    the rest ("n additional anime updates!", n the length less 5); with 5
    entries or fewer its fields are the full-detail blocks of all the
    entries and there is no count.  A full-detail block is a
    [detail_field]: title, status, score and episode count when they are
    there, summary and link. *)
Theorem notification_cap (session_get : string -> response) (send_ok : bool)
  (ch : channel) (seen : gset string) :
  pass_new (fetch_recent_episodes session_get send_ok (Some ch) seen) <> [] ->
  exists e,
    pass_sent (fetch_recent_episodes session_get send_ok (Some ch) seen) =
      Some (ch, e) /\
    ((5 < length (pass_new (fetch_recent_episodes session_get send_ok (Some ch) seen)))%nat ->
     embed_fields e =
       (map detail_field
          (firstn 5 (pass_new (fetch_recent_episodes session_get send_ok (Some ch) seen))) ++
        [ {| field_name := "And more...";
             field_value :=
               str_int (Z.of_nat (length (pass_new
                  (fetch_recent_episodes session_get send_ok (Some ch) seen))) - 5) +:+
               " additional anime updates!";
             field_inline := false |} ])%list) /\
    ((length (pass_new (fetch_recent_episodes session_get send_ok (Some ch) seen)) <= 5)%nat ->
     embed_fields e =
       map detail_field (pass_new (fetch_recent_episodes session_get send_ok (Some ch) seen))).
Proof.
  unfold fetch_recent_episodes, fetch_recent_episodes_from.
  destruct (new_episodes (fetch_all apis session_get _)) as [|first rest] eqn:Hn;
    cbn [pass_new pass_sent]; [congruence|].
  intros _. eexists. split; [reflexivity|].
  rewrite build_embed_fields.
  rewrite (List.map_ext _ _ anime_field_detail).
  split; intros Hlen.
  - apply Nat.ltb_lt in Hlen. rewrite Hlen. reflexivity.
  - assert (Hle : (5 <? length (first :: rest))%nat = false)
      by (apply Nat.ltb_ge; exact Hlen).
    rewrite Hle, app_nil_r, firstn_all2 by exact Hlen. reflexivity.
Qed.

(** *** The score and the episode count in a field *)

Lemma make_episode_info_raw d te t m e :
  make_episode_info (PDict d) te t m = Ok e ->
  score e = default PNone (dict_lookup d "score") /\
  episodes e = default PNone (dict_lookup d "episodes").
Proof.
  intros He. apply make_episode_info_fields in He as (_ & Hs & Hn).
  simpl in Hs, Hn. injection Hs as Hs. injection Hn as Hn.
  split; symmetry; assumption.
Qed.

(** C9 (score and episode count), as the code has it.  The score and the
    episode count of an entry are those of the raw entry, [None] when
    the key is missing.  In the field of an entry shown in full, the
    score line is there whenever the score is true in Python's sense
    (neither missing nor null, nor zero, nor empty), and so is the line
    of the episode count whenever the count is.  And the field is
    exactly: the status line, the score line if and only if the score is
    true in that sense, the line of the episode count if and only if the
    count is, the synopsis line, the link; so a score or a count that is
    missing, null or 0 gets no line, whatever the other one is. *)
Theorem score_and_episodes_lines (d : list (string * pyval))
  (te t m : pyval) (e : episode_info) :
  make_episode_info (PDict d) te t m = Ok e ->
  (forall v, dict_lookup d "score" = Some v -> truthy v = true ->
     exists pre post, anime_field_value e = pre +:+ score_line v +:+ post) /\
  (forall v, dict_lookup d "episodes" = Some v -> truthy v = true ->
     exists pre post, anime_field_value e = pre +:+ episodes_line v +:+ post) /\
  score e = default PNone (dict_lookup d "score") /\
  episodes e = default PNone (dict_lookup d "episodes") /\
  anime_field_value e =
    "**Status:** " +:+ py_str (status e) +:+ nl +:+
    (if truthy (default PNone (dict_lookup d "score"))
     then "**Score:** " +:+ py_str (default PNone (dict_lookup d "score")) +:+
          "/10" +:+ nl
     else "") +:+
    (if truthy (default PNone (dict_lookup d "episodes"))
     then "**Episodes:** " +:+
          py_str (default PNone (dict_lookup d "episodes")) +:+ nl
     else "") +:+
    "**Synopsis:** " +:+ synopsis e +:+ nl +:+
    "[View on MAL](" +:+ py_str (url e) +:+ ")".
Proof.
  intros He. destruct (make_episode_info_raw _ _ _ _ _ He) as (Hs & Hn).
  rewrite anime_field_value_unfold.
  split; [|split; [|split; [exact Hs | split; [exact Hn|]]]].
  - intros v Hl Hv. rewrite Hl in Hs. simpl in Hs. rewrite Hs, Hv.
    exists ("**Status:** " +:+ py_str (status e) +:+ nl).
    exists ((if truthy (episodes e) then episodes_line (episodes e) else "") +:+
            ("**Synopsis:** " +:+ synopsis e +:+ nl) +:+
            "[View on MAL](" +:+ py_str (url e) +:+ ")").
    reflexivity.
  - intros v Hl Hv. rewrite Hl in Hn. simpl in Hn. rewrite Hn, Hv.
    exists (("**Status:** " +:+ py_str (status e) +:+ nl) +:+
            (if truthy (score e) then score_line (score e) else "")).
    exists (("**Synopsis:** " +:+ synopsis e +:+ nl) +:+
            "[View on MAL](" +:+ py_str (url e) +:+ ")").
    rewrite !append_assoc. reflexivity.
  - rewrite <- Hs, <- Hn. unfold score_line, episodes_line.
    destruct (truthy (score e)), (truthy (episodes e));
      rewrite ?append_assoc; reflexivity.
Qed.

(** ** Further properties of the pass *)

(** *** The items of an endpoint *)

Lemma for_anime_chars c s st :
  for_anime (chars (String c s)) st = (st, false).
Proof. reflexivity. Qed.

Lemma fetch_api_items a r st :
  fetch_api a r st =
  match endpoint_items a r with
  | Some items => fst (for_anime items st)
  | None => st
  end.
Proof.
  unfold fetch_api, endpoint_items.
  destruct r as [| |status json]; try reflexivity.
  destruct (Z.eqb_spec status 200) as [->|Hne]; simpl.
  - destruct json as [data|]; [|reflexivity].
    destruct data as [| | | | | |d]; try reflexivity. simpl.
    destruct (dict_lookup d (api_key a)) as [v|]; [|reflexivity].
    destruct v as [| [|] | z | f | [|c s] | [|x l] | [|kv d']];
      try reflexivity; simpl.
    + destruct (negb (z =? 0)%Z); reflexivity.
    + destruct (negb (PrimFloat.eqb f 0)); reflexivity.
  - destruct status as [|p|p]; try reflexivity.
    repeat (destruct p as [p|p|]; try reflexivity). congruence.
Qed.

Lemma endpoint_items_Some a r items :
  endpoint_items a r = Some items ->
  exists data x l,
    r = Response 200 (Ok (PDict data)) /\
    dict_lookup data (api_key a) = Some (PList (x :: l)) /\
    items = firstn 10 (x :: l).
Proof.
  unfold endpoint_items.
  destruct r as [| |status [data|]]; try discriminate;
    destruct status as [|p|p]; try discriminate;
    repeat (destruct p as [p|p|]; try discriminate).
  - destruct data as [| | | | | |d]; try discriminate.
    destruct (dict_lookup d (api_key a)) as [[| | | | |[|x l]|]|] eqn:Hl;
      try discriminate.
    intros [= <-]. eauto 6.
Qed.

Lemma endpoint_items_length a r items :
  endpoint_items a r = Some items -> (length items <= 10)%nat.
Proof.
  intros H. apply endpoint_items_Some in H as (data & x & l & _ & _ & ->).
  rewrite length_firstn. lia.
Qed.

Lemma for_anime_length items :
  forall st,
    (length (new_episodes (fst (for_anime items st))) <=
     length (new_episodes st) + length items)%nat.
Proof.
  induction items as [|a rest IH]; intros st; simpl; [lia|].
  destruct (process_anime a st) as [st'|] eqn:Hp; simpl; [|lia].
  specialize (IH st').
  apply process_anime_Ok in Hp as (uid & _ & [[_ ->] | [_ (e & _ & _ & ->)]]);
    simpl in *; rewrite ?length_app in *; simpl in *; lia.
Qed.

Lemma fetch_api_length a r st :
  (length (new_episodes (fetch_api a r st)) <= length (new_episodes st) + 10)%nat.
Proof.
  rewrite fetch_api_items.
  destruct (endpoint_items a r) as [items|] eqn:Hi; [|lia].
  pose proof (endpoint_items_length _ _ _ Hi).
  pose proof (for_anime_length items st). lia.
Qed.

Lemma fetch_all_length l session_get :
  forall st,
    (length (new_episodes (fetch_all l session_get st)) <=
     length (new_episodes st) + 10 * length l)%nat.
Proof.
  unfold fetch_all. induction l as [|a l IH]; intros st; simpl; [lia|].
  specialize (IH (fetch_api a (session_get (api_url a)) st)).
  pose proof (fetch_api_length a (session_get (api_url a)) st). lia.
Qed.

(** X1 (only a full answer changes anything).  An endpoint changes the
    store or the new-list only when it answers with status 200 and a body
    that is an object holding a non-empty list under the endpoint's key:
    any other status (201 and 204 included), a body that is not JSON, a
    body that is a list, a missing key, an empty list, a string or a
    number under the key all leave both as they were. *)
Theorem only_a_full_answer_changes (a : api) (r : response) (st : differ_state) :
  fetch_api a r st <> st ->
  exists data x l,
    r = Response 200 (Ok (PDict data)) /\
    dict_lookup data (api_key a) = Some (PList (x :: l)).
Proof.
  rewrite fetch_api_items. intros Hne.
  destruct (endpoint_items a r) as [items|] eqn:Hi; [|congruence].
  apply endpoint_items_Some in Hi as (data & x & l & Hr & Hl & _). eauto.
Qed.

(** X2 (bounded intake).  One endpoint adds at most 10 entries to the
    new-list, however long the list it answers with, and a pass of the
    bot over its two endpoints gives at most 20 new entries. *)
Theorem bounded_intake (a : api) (r : response) (st : differ_state)
  (session_get : string -> response) (send_ok : bool) (ch : option channel)
  (seen : gset string) :
  (length (new_episodes (fetch_api a r st)) <=
   length (new_episodes st) + 10)%nat /\
  (length (pass_new (fetch_recent_episodes session_get send_ok ch seen)) <= 20)%nat.
Proof.
  split; [apply fetch_api_length|].
  unfold fetch_recent_episodes.
  destruct (pass_state apis session_get send_ok ch seen) as [_ ->].
  pose proof (fetch_all_length apis session_get
                {| last_seen_titles := seen; new_episodes := [] |}) as H.
  simpl in H. exact H.
Qed.

(** *** The same answer twice *)

Lemma for_anime_again items st :
  for_anime items (fst (for_anime items st)) =
  (fst (for_anime items st), snd (for_anime items st)).
Proof.
  destruct (for_anime items st) as [st1 b] eqn:Hrun. simpl.
  pose proof (for_anime_rerun items st st1 b (new_episodes st1) Hrun) as H.
  destruct st1; exact H.
Qed.

Lemma endpoint_items_key a a' r :
  api_key a = api_key a' -> endpoint_items a' r = endpoint_items a r.
Proof. unfold endpoint_items. intros ->. reflexivity. Qed.

(** X3 (the same answer twice).  When two endpoints that read the same
    key get the same answer, the second adds nothing: neither an entry
    nor an identity.  So an anime listed by both endpoints of the bot is
    notified once. *)
Theorem same_answer_twice (a a' : api) (r : response) (st : differ_state) :
  api_key a = api_key a' ->
  fetch_api a' r (fetch_api a r st) = fetch_api a r st.
Proof.
  intros Hkey. rewrite !fetch_api_items, (endpoint_items_key a a' r Hkey).
  destruct (endpoint_items a r) as [items|]; [|reflexivity].
  rewrite for_anime_again. reflexivity.
Qed.

(** *** Two passes over an unchanged catalog *)

Lemma fetch_all_cons a l session_get st :
  fetch_all (a :: l) session_get st =
  fetch_all l session_get (fetch_api a (session_get (api_url a)) st).
Proof. reflexivity. Qed.

(** After the loop over the endpoints, every identity of every item is
    in the set, when every item can be built. *)
Lemma fetch_all_registers l session_get :
  forall st,
    Forall buildable (pass_items l session_get) ->
    forall anime uid,
      anime ∈ pass_items l session_get -> anime_identity anime = Ok uid ->
      uid ∈ last_seen_titles (fetch_all l session_get st).
Proof.
  unfold pass_items.
  induction l as [|a l IH]; intros st Hall anime uid Hin Hid;
    simpl in Hall, Hin.
  - inversion Hin.
  - rewrite fetch_all_cons. apply Forall_app in Hall as [Ha Hl].
    apply elem_of_app in Hin as [Hin | Hin]; [|eapply IH; eauto].
    apply (grows_subseteq _ _ (fetch_all_grows l session_get _)).
    rewrite fetch_api_items.
    destruct (endpoint_items a (session_get (api_url a))) as [items|];
      simpl in *; [|inversion Hin].
    pose proof (for_anime_completes items st Ha) as Hdone.
    destruct (for_anime items st) as [st1 b] eqn:Hrun. simpl in *. subst b.
    eapply for_anime_registers; eauto.
Qed.

(** A loop over endpoints whose items are all known changes nothing. *)
Lemma fetch_all_known l session_get :
  forall st,
    (forall anime, anime ∈ pass_items l session_get ->
       exists uid, anime_identity anime = Ok uid /\ uid ∈ last_seen_titles st) ->
    fetch_all l session_get st = st.
Proof.
  unfold pass_items.
  induction l as [|a l IH]; intros st Hall; [reflexivity|].
  rewrite fetch_all_cons. simpl in Hall.
  assert (Ha : fetch_api a (session_get (api_url a)) st = st).
  { rewrite fetch_api_items.
    destruct (endpoint_items a (session_get (api_url a))) as [items|];
      simpl in *; [|reflexivity].
    rewrite for_anime_all_seen; [reflexivity|].
    apply Forall_forall. intros x Hx. apply Hall, elem_of_app. left. exact Hx. }
  rewrite Ha. apply IH. intros x Hx. apply Hall, elem_of_app. right. exact Hx.
Qed.

(** X4 (an unchanged catalog gives nothing new).  When the endpoints
    answer a second pass as they answered the first, and every item of
    those answers can be built, the second pass finds no new entry, adds
    nothing to the store, hands nothing to the channel and returns;
    whatever the channel and the fate of the first delivery were. *)
Theorem unchanged_catalog_gives_nothing (l : list api)
  (session_get : string -> response) (send_ok send_ok' : bool)
  (ch ch' : option channel) (seen : gset string) :
  Forall buildable (pass_items l session_get) ->
  fetch_recent_episodes_from l session_get send_ok' ch'
    (pass_seen (fetch_recent_episodes_from l session_get send_ok ch seen)) =
  {| pass_seen :=
       pass_seen (fetch_recent_episodes_from l session_get send_ok ch seen);
     pass_new := [];
     pass_sent := None;
     pass_returned := true |}.
Proof.
  intros Hall.
  destruct (pass_state l session_get send_ok ch seen) as [Hseen _].
  simpl in Hseen. rewrite Hseen.
  unfold fetch_recent_episodes_from at 1.
  rewrite fetch_all_known; [reflexivity|].
  intros anime Hin. simpl.
  rewrite Forall_forall in Hall. destruct (Hall anime Hin) as [e He].
  exists (entry_identity e). split; [apply entry_of_identity, He|].
  eapply fetch_all_registers; eauto using entry_of_identity.
  apply Forall_forall, Hall.
Qed.

(** *** Order *)

Lemma for_anime_order items :
  forall st, exists accepted added,
    new_episodes (fst (for_anime items st)) = (new_episodes st ++ added)%list /\
    accepted `sublist_of` items /\
    Forall2 (fun anime e => entry_of anime = Ok e) accepted added.
Proof.
  induction items as [|a rest IH]; intros st; simpl.
  - exists [], []. rewrite app_nil_r. repeat split; constructor.
  - destruct (process_anime a st) as [st'|] eqn:Hp; simpl.
    + destruct (IH st') as (acc & add & Hn & Hsub & Hall).
      apply process_anime_Ok in Hp as (uid & _ & [[_ ->] | [_ (e & He & _ & ->)]]).
      * exists acc, add. repeat split; [exact Hn | apply sublist_cons, Hsub | exact Hall].
      * exists (a :: acc), (e :: add). simpl in Hn. rewrite <- app_assoc in Hn.
        repeat split; [exact Hn | apply sublist_skip, Hsub | constructor; assumption].
    + exists [], []. rewrite app_nil_r.
      repeat split; [apply sublist_nil_l | constructor].
Qed.

Lemma fetch_all_order l session_get :
  forall st, exists accepted added,
    new_episodes (fetch_all l session_get st) = (new_episodes st ++ added)%list /\
    accepted `sublist_of` pass_items l session_get /\
    Forall2 (fun anime e => entry_of anime = Ok e) accepted added.
Proof.
  unfold pass_items. induction l as [|a l IH]; intros st.
  - exists [], []. simpl. rewrite app_nil_r. repeat split; constructor.
  - rewrite fetch_all_cons.
    destruct (IH (fetch_api a (session_get (api_url a)) st))
      as (acc2 & add2 & Hn2 & Hsub2 & Hall2).
    assert (exists acc1 add1,
      new_episodes (fetch_api a (session_get (api_url a)) st) =
        (new_episodes st ++ add1)%list /\
      acc1 `sublist_of` default [] (endpoint_items a (session_get (api_url a))) /\
      Forall2 (fun anime e => entry_of anime = Ok e) acc1 add1)
      as (acc1 & add1 & Hn1 & Hsub1 & Hall1).
    { rewrite fetch_api_items.
      destruct (endpoint_items a (session_get (api_url a))) as [items|]; simpl.
      - apply for_anime_order.
      - exists [], []. rewrite app_nil_r. repeat split; constructor. }
    exists (acc1 ++ acc2)%list, (add1 ++ add2)%list. simpl.
    rewrite Hn2, Hn1, <- app_assoc.
    repeat split; [apply sublist_app; assumption | apply Forall2_app; assumption].
Qed.

(** X5 (order preservation).  The new-list of a pass keeps the order of
    the catalog: it is made of the entries of some of the items the
    endpoints answered, taken in the order of the endpoints and, within
    an endpoint, in the order of its list. *)
Theorem order_preservation (l : list api) (session_get : string -> response)
  (send_ok : bool) (ch : option channel) (seen : gset string) :
  exists accepted,
    accepted `sublist_of` pass_items l session_get /\
    Forall2 (fun anime e => entry_of anime = Ok e) accepted
      (pass_new (fetch_recent_episodes_from l session_get send_ok ch seen)).
Proof.
  destruct (pass_state l session_get send_ok ch seen) as [_ ->].
  destruct (fetch_all_order l session_get
              {| last_seen_titles := seen; new_episodes := [] |})
    as (acc & add & Hn & Hsub & Hall).
  simpl in Hn. rewrite Hn. eauto.
Qed.

(** X6 (the store counts the notified entries).  A pass adds to the
    store exactly one identity per entry of its new-list: the size of
    the store after the pass is its size before plus the length of the
    new-list. *)
Theorem store_counts_new_entries (l : list api)
  (session_get : string -> response) (send_ok : bool) (ch : option channel)
  (seen : gset string) :
  size (pass_seen (fetch_recent_episodes_from l session_get send_ok ch seen)) =
  (size seen +
   length (pass_new (fetch_recent_episodes_from l session_get send_ok ch seen)))%nat.
Proof.
  pose proof (pass_grows l session_get send_ok ch seen) as (Hnd & Hf & Hs).
  simpl in Hnd, Hf, Hs. rewrite Hs, size_union.
  - rewrite size_list_to_set by exact Hnd. rewrite length_map. lia.
  - intros uid Hin1 Hin2. apply elem_of_list_to_set in Hin1.
    apply list_elem_of_fmap in Hin1 as (e & -> & He).
    rewrite Forall_forall in Hf. exact (Hf e He Hin2).
Qed.

(** *** Malformed entries *)

Lemma for_anime_app l1 l2 :
  forall st,
    for_anime (l1 ++ l2) st =
    if snd (for_anime l1 st) then for_anime l2 (fst (for_anime l1 st))
    else for_anime l1 st.
Proof.
  induction l1 as [|a l1 IH]; intros st; simpl; [reflexivity|].
  destruct (process_anime a st) as [st'|]; [apply IH | reflexivity].
Qed.

(** X7 (a malformed entry cuts the list short).  When the loop body
    raises on an entry, the entries accepted before it stay in the
    new-list and in the store, and the entries after it are not looked
    at in this pass, whatever they are. *)
Theorem malformed_entry_cuts_the_list (good rest : list pyval) (bad : pyval)
  (st : differ_state) :
  snd (for_anime good st) = true ->
  process_anime bad (fst (for_anime good st)) = Raise ->
  for_anime (good ++ bad :: rest) st = (fst (for_anime good st), false).
Proof.
  intros Hgood Hbad. rewrite for_anime_app, Hgood. simpl. rewrite Hbad.
  reflexivity.
Qed.

Lemma make_episode_info_aired d te t m v :
  dict_lookup d "aired" = Some v -> (forall d', v <> PDict d') ->
  make_episode_info (PDict d) te t m = Raise.
Proof.
  intros Hl Hv. unfold make_episode_info. simpl. rewrite Hl.
  destruct v; try reflexivity. exfalso. eapply Hv. reflexivity.
Qed.

(** X8 (what is malformed, and when it matters).  A raw entry that is
    not an object makes the loop body raise.  An object whose ["aired"]
    is present and not an object (null, for one) makes it raise when its
    identity is not in the store, for the entry is then built; when its
    identity is in the store the entry is skipped before anything of it
    is read, and nothing is raised. *)
Theorem malformed_raw_entries (d : list (string * pyval)) (v : pyval)
  (uid : string) (st : differ_state) :
  dict_lookup d "aired" = Some v -> (forall d', v <> PDict d') ->
  anime_identity (PDict d) = Ok uid ->
  (forall anime, (forall d', anime <> PDict d') ->
     process_anime anime st = Raise) /\
  (uid ∉ last_seen_titles st -> process_anime (PDict d) st = Raise) /\
  (uid ∈ last_seen_titles st -> process_anime (PDict d) st = Ok st).
Proof.
  intros Hl Hv Hid. split; [|split].
  - intros anime Hnot. destruct anime; try reflexivity.
    exfalso. eapply Hnot. reflexivity.
  - intros Hnew. rewrite process_anime_unfold, Hid.
    rewrite bool_decide_true by exact Hnew.
    unfold entry_of. simpl.
    rewrite (make_episode_info_aired d _ _ _ v Hl Hv). reflexivity.
  - intros Hold. apply (process_anime_seen _ _ uid Hid Hold).
Qed.

Lemma anime_identity_lookup d d' :
  dict_lookup d "mal_id" = dict_lookup d' "mal_id" ->
  dict_lookup d "title" = dict_lookup d' "title" ->
  anime_identity (PDict d) = anime_identity (PDict d').
Proof.
  intros Hm Ht. unfold anime_identity. simpl. rewrite Hm, Ht. reflexivity.
Qed.

(** X9 (an update of an anime is not news).  The identity of a raw entry
    is made of its ["mal_id"] and its ["title"] only.  Once an entry has
    gone through the loop body without an exception, any raw entry with
    the same two values, whatever its score, episode count, English
    title, synopsis or shape otherwise, is skipped: it changes neither
    the new-list nor the store. *)
Theorem update_is_not_news (d d' : list (string * pyval)) (st st' : differ_state) :
  dict_lookup d "mal_id" = dict_lookup d' "mal_id" ->
  dict_lookup d "title" = dict_lookup d' "title" ->
  process_anime (PDict d) st = Ok st' ->
  process_anime (PDict d') st' = Ok st'.
Proof.
  intros Hm Ht Hp.
  apply process_anime_Ok in Hp as (uid & Hid & Hcase).
  rewrite (anime_identity_lookup d d' Hm Ht) in Hid.
  apply (process_anime_seen _ _ uid Hid).
  destruct Hcase as [[Hin ->] | [_ (e & _ & _ & ->)]]; simpl; set_solver.
Qed.

(** *** Titles *)

(** X10 (title fallback).  In the entry built from a raw entry, the
    original title is the raw ["title"], or 'Unknown Anime' when the key
    is missing (a null title stays null, and shows as "None"); the
    displayed title is the ["title_english"] when that is true in
    Python's sense, and the original title otherwise; and the identity
    is always made of the ["mal_id"] and the original title, never of
    the English one. *)
Theorem title_fallback (d : list (string * pyval)) (e : episode_info) :
  entry_of (PDict d) = Ok e ->
  title_jp e = default (PStr "Unknown Anime") (dict_lookup d "title") /\
  title e =
    (if truthy (default PNone (dict_lookup d "title_english"))
     then default PNone (dict_lookup d "title_english")
     else title_jp e) /\
  entry_identity e =
    py_str (default PNone (dict_lookup d "mal_id")) +:+ "_" +:+
    py_str (title_jp e).
Proof.
  unfold entry_of. simpl. intros H.
  apply make_episode_info_keys in H as (Ht & Hj & Hm).
  unfold entry_identity, unique_id. rewrite Ht, Hj, Hm. unfold py_or.
  destruct (dict_lookup d "title"), (dict_lookup d "title_english"),
    (dict_lookup d "mal_id"); auto.
Qed.

(** *** The summary, further *)

(** X11 (a synopsis that is not a string).  When the raw ["synopsis"] is
    present and not a string, the summary is the placeholder if the
    value is false in Python's sense (0, false, an empty list or
    object), and computing it raises otherwise, so that no entry is
    built. *)
Theorem synopsis_not_a_string (d : list (string * pyval)) (v : pyval) :
  dict_lookup d "synopsis" = Some v -> (forall s, v <> PStr s) ->
  synopsis_of (PDict d) =
    (if truthy v then Raise else Ok "No synopsis available") /\
  (truthy v = true ->
   forall te t m, make_episode_info (PDict d) te t m = Raise).
Proof.
  intros Hl Hv.
  assert (Hsyn : synopsis_of (PDict d) =
                 if truthy v then Raise else Ok "No synopsis available").
  { unfold synopsis_of. simpl. rewrite Hl.
    destruct v as [| [|] | z | f | s | [|x l] | [|kv d']]; simpl; try reflexivity.
    exfalso. eapply Hv. reflexivity. }
  split; [exact Hsyn|]. intros Htrue te t m.
  rewrite Htrue in Hsyn.
  destruct (make_episode_info (PDict d) te t m) as [e|] eqn:He; [|reflexivity].
  apply make_episode_info_fields in He as (Hs & _). congruence.
Qed.

Lemma length_append (s1 s2 : string) :
  String.length (s1 +:+ s2) = (String.length s1 + String.length s2)%nat.
Proof.
  induction s1 as [|c s1 IH]; [reflexivity|].
  rewrite append_cons. simpl. rewrite IH. reflexivity.
Qed.

(** X12 (the summary is short).  Whatever the raw entry, a summary that
    is computed has at most 203 characters: 200 of the synopsis and the
    three of the ellipsis. *)
Theorem summary_is_short (anime : pyval) (s : string) :
  synopsis_of anime = Ok s -> (String.length s <= 203)%nat.
Proof.
  destruct anime as [| | | | | |d]; try discriminate.
  unfold synopsis_of. simpl.
  destruct (dict_lookup d "synopsis") as [v|]; simpl.
  - destruct (truthy v); [|intros [= <-]; simpl; lia].
    destruct v; simpl; try discriminate.
    intros [= <-]. rewrite length_append, substring_length.
    change (String.length "...") with 3%nat. lia.
  - intros [= <-]. simpl. lia.
Qed.

(** *** The outcome of a pass *)


Lemma fold_add_anime_thumbnail l :
  forall e,
    embed_thumbnail (fold_left add_anime_field l e) = embed_thumbnail e.
Proof.
  induction l as [|a l IH]; intros e; simpl; [reflexivity|].
  rewrite IH. reflexivity.
Qed.

(** X14 (the embed is bounded).  Whatever the new-list, the embed has at
    most 6 fields: one per entry up to 5, and the count when there are
    more; and when it has a thumbnail, that is the image of the first
    new entry, which is then true in Python's sense. *)
Theorem embed_is_bounded (first : episode_info) (new : list episode_info) :
  length (embed_fields (build_embed first new)) =
    (Nat.min (length new) 5 + (if (5 <? length new)%nat then 1 else 0))%nat /\
  (length (embed_fields (build_embed first new)) <= 6)%nat /\
  (forall u, embed_thumbnail (build_embed first new) = Some u ->
     u = image first /\ truthy u = true).
Proof.
  assert (Hlen : length (embed_fields (build_embed first new)) =
    (Nat.min (length new) 5 + (if (5 <? length new)%nat then 1 else 0))%nat).
  { rewrite build_embed_fields, length_app, length_map, length_firstn.
    destruct (5 <? length new)%nat; cbn [length]; lia. }
  split; [exact Hlen|]. split.
  - rewrite Hlen. destruct (5 <? length new)%nat; lia.
  - intros u. unfold build_embed.
    destruct (truthy (image first)) eqn:Ht; simpl.
    + intros [= <-]. auto.
    + destruct (5 <? length new)%nat; simpl;
        rewrite fold_add_anime_thumbnail; discriminate.
Qed.

(** *** The globals over time *)

Lemma pass_seen_subseteq session_get send_ok ch seen :
  seen ⊆ pass_seen (fetch_recent_episodes session_get send_ok ch seen).
Proof.
  unfold fetch_recent_episodes.
  pose proof (pass_grows apis session_get send_ok ch seen) as (_ & _ & Hs).
  simpl in Hs. rewrite Hs. set_solver.
Qed.

Lemma step_seen_subseteq ev g :
  is_clear ev = false ->
  Globals.last_seen_titles g ⊆ Globals.last_seen_titles (step ev g).
Proof.
  destruct ev; simpl; try discriminate; intros _; try reflexivity.
  - unfold Commands.start. destruct (running g); reflexivity.
  - unfold Commands.stop. destruct (Globals.check_task g); [|reflexivity].
    destruct (active g n); reflexivity.
  - apply pass_seen_subseteq.
  - unfold loop_pass.
    destruct (Globals.tasks g !! t) as [[| | |]|]; simpl;
      try reflexivity; apply pass_seen_subseteq.
Qed.

(** X15 (identities are only removed by [clear]).  Over any sequence of
    commands, passes and ends of tasks that holds no [clear], the store
    only grows: every identity it held at the start is still there at
    the end. *)
Theorem only_clear_removes (evs : list event) (g : Globals.t) :
  Forall (fun ev => is_clear ev = false) evs ->
  Globals.last_seen_titles g ⊆ Globals.last_seen_titles (run evs g).
Proof.
  unfold run. revert g. induction evs as [|ev evs IH]; intros g Hall; simpl.
  - reflexivity.
  - apply Forall_cons in Hall as [Hev Hall].
    etransitivity; [apply (step_seen_subseteq ev g Hev) | apply IH, Hall].
Qed.

Lemma step_channel ev g :
  is_Some (Globals.notification_channel g) ->
  is_Some (Globals.notification_channel (step ev g)).
Proof.
  intros H. destruct ev as [ctx|ctx|ctx|ctx|ctx sg ok|ctx|t sg ok|t]; simpl.
  - unfold Commands.start. destruct (running g); simpl; eauto.
  - unfold Commands.stop. destruct (Globals.check_task g) as [t|]; [|exact H].
    destruct (active g t); exact H.
  - exact H.
  - eauto.
  - exact H.
  - exact H.
  - unfold loop_pass.
    destruct (Globals.tasks g !! t) as [[| | |]|]; simpl; exact H.
  - exact H.
Qed.

Lemma step_tasks_channel ev g :
  Globals.tasks g = [] \/ is_Some (Globals.notification_channel g) ->
  Globals.tasks (step ev g) = [] \/
  is_Some (Globals.notification_channel (step ev g)).
Proof.
  intros [Hnil | Hsome]; [|right; apply step_channel, Hsome].
  destruct ev as [ctx|ctx|ctx|ctx|ctx sg ok|ctx|t sg ok|t]; simpl.
  - right. unfold Commands.start. destruct (running g) eqn:Hrun; simpl; eauto.
    unfold running in Hrun. destruct (Globals.check_task g); [|discriminate].
    unfold active in Hrun. rewrite Hnil in Hrun. discriminate.
  - left. unfold Commands.stop.
    destruct (Globals.check_task g) as [t|]; [|exact Hnil].
    destruct (active g t); [simpl; rewrite Hnil; reflexivity | exact Hnil].
  - left. exact Hnil.
  - right. eauto.
  - left. exact Hnil.
  - left. exact Hnil.
  - left. unfold loop_pass. rewrite Hnil, lookup_nil. exact Hnil.
  - left. rewrite Hnil. reflexivity.
Qed.

Lemma run_tasks_channel evs :
  forall g,
    Globals.tasks g = [] \/ is_Some (Globals.notification_channel g) ->
    Globals.tasks (run evs g) = [] \/
    is_Some (Globals.notification_channel (run evs g)).
Proof.
  unfold run. induction evs as [|ev evs IH]; intros g H; simpl; [exact H|].
  apply IH, step_tasks_channel, H.
Qed.

(** X16 (a running checker has a channel).  A channel, once set, is
    never unset, by no sequence of events; and in every state the bot
    reaches from its start, a checker that is running has a channel to
    notify: the loop never runs a pass without one. *)
Theorem running_checker_has_a_channel (evs : list event) :
  (forall g, is_Some (Globals.notification_channel g) ->
     is_Some (Globals.notification_channel (run evs g))) /\
  (running (run evs initial) = true ->
   is_Some (Globals.notification_channel (run evs initial))).
Proof.
  split.
  - unfold run. induction evs as [|ev evs IH]; intros g H; simpl; [exact H|].
    apply IH, step_channel, H.
  - intros Hrun.
    destruct (run_tasks_channel evs initial (or_introl eq_refl)) as [Hnil|H];
      [|exact H].
    unfold running in Hrun.
    destruct (Globals.check_task (run evs initial)); [|discriminate].
    unfold active in Hrun. rewrite Hnil in Hrun. discriminate.
Qed.

(** *** The life of the loop task *)

Lemma loop_pass_looping t session_get send_ok g :
  Globals.tasks g !! t = Some TaskLooping ->
  Globals.tasks (loop_pass t session_get send_ok g) = Globals.tasks g /\
  Globals.check_task (loop_pass t session_get send_ok g) = Globals.check_task g /\
  Globals.notification_channel (loop_pass t session_get send_ok g) =
    Globals.notification_channel g.
Proof. intros H. unfold loop_pass. rewrite H. auto. Qed.

(** X17 (the loop outlives its failed passes).  Once the task is in its
    [while] loop, no pass ends it, however many passes there are and
    whether their deliveries fail or not: the task stays in the loop,
    and [check_task] and the channel stay as they were. *)
Theorem loop_outlives_failed_passes (t : nat) (g : Globals.t)
  (passes : list ((string -> response) * bool)) :
  Globals.tasks g !! t = Some TaskLooping ->
  let g' := run (map (fun p => LoopPass t (fst p) (snd p)) passes) g in
  Globals.tasks g' !! t = Some TaskLooping /\
  Globals.check_task g' = Globals.check_task g /\
  Globals.notification_channel g' = Globals.notification_channel g.
Proof.
  unfold run. revert g.
  induction passes as [|[sg ok] passes IH]; intros g H; simpl; [auto|].
  destruct (loop_pass_looping t sg ok g H) as (Ht & Hc & Hn).
  destruct (IH (loop_pass t sg ok g)) as (Ht' & Hc' & Hn').
  - rewrite Ht. exact H.
  - simpl in *. rewrite Ht', Hc', Hn'. auto.
Qed.

(** X18 (a failed first delivery ends the checker).  The first pass of
    the loop runs outside the [try]: when it has new entries and their
    delivery fails, the exception ends the task, the checker is no
    longer running, and yet the identities of the entries that were not
    delivered are in the store, so a later pass will not notify them. *)
Theorem failed_first_delivery_ends_the_checker (t : nat)
  (session_get : string -> response) (g : Globals.t) (ch : channel) :
  Globals.tasks g !! t = Some TaskInitial ->
  Globals.check_task g = Some t ->
  Globals.notification_channel g = Some ch ->
  pass_new (fetch_recent_episodes session_get false (Some ch)
              (Globals.last_seen_titles g)) <> [] ->
  Globals.tasks (loop_pass t session_get false g) !! t = Some TaskDone /\
  running (loop_pass t session_get false g) = false /\
  (forall e,
     e ∈ pass_new (fetch_recent_episodes session_get false (Some ch)
                     (Globals.last_seen_titles g)) ->
     entry_identity e ∈
       Globals.last_seen_titles (loop_pass t session_get false g)).
Proof.
  intros Ht Hc Hn Hnew.
  assert (Hret : pass_returned (fetch_recent_episodes session_get false (Some ch)
                   (Globals.last_seen_titles g)) = false).
  { revert Hnew. unfold fetch_recent_episodes, fetch_recent_episodes_from.
    destruct (new_episodes (fetch_all apis session_get _)); simpl;
      [congruence | reflexivity]. }
  assert (Htasks : Globals.tasks (loop_pass t session_get false g) !! t =
                   Some TaskDone).
  { unfold loop_pass. rewrite Ht, Hn, Hret. simpl.
    apply list_lookup_insert_eq. apply lookup_lt_Some in Ht. exact Ht. }
  split; [exact Htasks|]. split.
  - unfold running, active.
    assert (Globals.check_task (loop_pass t session_get false g) = Some t) as ->
      by (unfold loop_pass; rewrite Ht; exact Hc).
    rewrite Htasks. reflexivity.
  - intros e He.
    assert (Globals.last_seen_titles (loop_pass t session_get false g) =
            pass_seen (fetch_recent_episodes session_get false (Some ch)
                         (Globals.last_seen_titles g))) as ->
      by (unfold loop_pass; rewrite Ht, Hn; reflexivity).
    unfold fetch_recent_episodes in *.
    pose proof (pass_grows apis session_get false (Some ch)
                  (Globals.last_seen_titles g)) as (_ & _ & Hs).
    simpl in Hs. rewrite Hs. apply elem_of_union_l, elem_of_list_to_set.
    apply list_elem_of_fmap. eauto.
Qed.

Lemma single_flight_idle g :
  single_flight g -> running g = false -> active_tasks g = [].
Proof.
  intros Hsf Hrun. destruct (active_tasks g) as [|x l] eqn:Hact; [reflexivity|].
  assert (Hx : x ∈ active_tasks g) by (rewrite Hact; left).
  apply active_tasks_spec in Hx. pose proof (Hsf x Hx) as Hc.
  unfold running in Hrun. rewrite Hc in Hrun. congruence.
Qed.

(** X19 (stop, then start again).  From a state the bot can reach, with
    the checker running: [stop] answers that the checker stopped and
    asks the task to cancel, which puts the task in the cancelling state
    and changes nothing else of the globals; until the task has ended
    the checker still counts as running, so a [start] in between is
    refused; once the task has ended it is done, no task is left that is
    not done, and a [start] then makes a new task, the only one not
    done, with the channel of that [start]. *)
Theorem stop_then_start_again (evs : list event) (ctx ctx' : context) (t : nat) :
  Globals.check_task (run evs initial) = Some t ->
  active (run evs initial) t = true ->
  let g := run evs initial in
  let g1 := fst (Commands.stop ctx g) in
  let g2 := task_exit t g1 in
  let g3 := fst (Commands.start ctx' g2) in
  snd (Commands.stop ctx g) = [Text "🛑 Anime release checker stopped."] /\
  g1 = {| Globals.check_task := Globals.check_task g;
          Globals.last_seen_titles := Globals.last_seen_titles g;
          Globals.notification_channel := Globals.notification_channel g;
          Globals.tasks := <[ t := TaskCancelling ]> (Globals.tasks g) |} /\
  Globals.tasks g1 !! t = Some TaskCancelling /\
  Commands.start ctx' g1 = (g1, [Text "❌ Anime checker is already running!"]) /\
  Globals.tasks g2 !! t = Some TaskDone /\
  running g2 = false /\
  active_tasks g2 = [] /\
  Globals.check_task g3 = Some (length (Globals.tasks g)) /\
  Globals.tasks g3 !! length (Globals.tasks g) = Some TaskInitial /\
  length (active_tasks g3) = 1%nat /\
  Globals.notification_channel g3 = Some (ctx_channel ctx').
Proof.
  intros Hc Hact g g1 g2 g3. fold g in Hc, Hact.
  assert (Hsf : single_flight g) by apply run_single_flight, single_flight_initial.
  assert (Hlt : (t < length (Globals.tasks g))%nat).
  { unfold active in Hact. destruct (Globals.tasks g !! t) eqn:Hl; [|discriminate].
    apply lookup_lt_Some in Hl. exact Hl. }
  assert (Hstop : Commands.stop ctx g =
    ({| Globals.check_task := Globals.check_task g;
        Globals.last_seen_titles := Globals.last_seen_titles g;
        Globals.notification_channel := Globals.notification_channel g;
        Globals.tasks := <[ t := TaskCancelling ]> (Globals.tasks g) |},
     [Text "🛑 Anime release checker stopped."])).
  { unfold Commands.stop. fold g. rewrite Hc, Hact. reflexivity. }
  assert (Hg1 : g1 =
    {| Globals.check_task := Globals.check_task g;
       Globals.last_seen_titles := Globals.last_seen_titles g;
       Globals.notification_channel := Globals.notification_channel g;
       Globals.tasks := <[ t := TaskCancelling ]> (Globals.tasks g) |})
    by (subst g1; rewrite Hstop; reflexivity).
  assert (Hsf1 : single_flight g1) by apply stop_single_flight, Hsf.
  assert (Hsf2 : single_flight g2) by apply task_exit_single_flight, Hsf1.
  assert (Ht1 : Globals.tasks g1 !! t = Some TaskCancelling).
  { rewrite Hg1. simpl. apply list_lookup_insert_eq, Hlt. }
  assert (Hc1 : Globals.check_task g1 = Some t) by (rewrite Hg1; exact Hc).
  assert (Hrun1 : running g1 = true).
  { unfold running. rewrite Hc1. unfold active. rewrite Ht1. reflexivity. }
  assert (Ht2 : Globals.tasks g2 !! t = Some TaskDone).
  { subst g2. unfold task_exit. simpl. apply list_lookup_insert_eq.
    apply lookup_lt_Some in Ht1. exact Ht1. }
  assert (Hrun2 : running g2 = false).
  { unfold running.
    assert (Globals.check_task g2 = Some t) as -> by exact Hc1.
    unfold active. rewrite Ht2. reflexivity. }
  assert (Hlen2 : length (Globals.tasks g2) = length (Globals.tasks g)).
  { subst g2. unfold task_exit. simpl. rewrite Hg1. simpl.
    rewrite !length_insert. reflexivity. }
  assert (Hstart : g3 =
    {| Globals.check_task := Some (length (Globals.tasks g2));
       Globals.last_seen_titles := Globals.last_seen_titles g2;
       Globals.notification_channel := Some (ctx_channel ctx');
       Globals.tasks := Globals.tasks g2 ++ [TaskInitial] |}).
  { subst g3. unfold Commands.start. rewrite Hrun2. reflexivity. }
  split; [rewrite Hstop; reflexivity|].
  split; [exact Hg1|]. split; [exact Ht1|].
  split; [unfold Commands.start; rewrite Hrun1; reflexivity|].
  split; [exact Ht2|].
  split; [exact Hrun2|]. split; [apply single_flight_idle; assumption|].
  split; [rewrite Hstart; cbn [Globals.check_task]; f_equal; exact Hlen2|].
  split.
  { rewrite Hstart. cbn [Globals.tasks]. rewrite <- Hlen2.
    rewrite lookup_app_r by lia. rewrite Nat.sub_diag. reflexivity. }
  split; [|rewrite Hstart; reflexivity].
  apply single_flight_running; [apply start_single_flight, Hsf2 | apply start_running].
Qed.

End Bot.

(** ** Examples, at concrete inputs *)

Lemma differ_twice_in_succession_witness :
  fst (entry_differ repr_unused [naruto; bleach; naruto] ∅) <> [] /\
  fst (entry_differ repr_unused [naruto; bleach; naruto]
         (snd (entry_differ repr_unused [naruto; bleach; naruto] ∅))) = [].
Proof.
  assert (H : fst (entry_differ repr_unused [naruto; bleach; naruto] ∅) <> [])
    by (vm_compute; discriminate).
  split; [exact H|].
  exact (proj1 (proj2 (differ_twice_in_succession repr_unused
                         [naruto; bleach; naruto] ∅ H))).
Defined.

(** C2 as it is worded fails: two raw entries of an identity the store
    already holds give no entry of that identity, not one. *)
Lemma intra_batch_dedup_seen_before :
  ~ ((2 <= count_raw repr_unused "20_Naruto" [naruto; naruto])%nat ->
     count_identity repr_unused "20_Naruto"
       (fst (entry_differ repr_unused [naruto; naruto] {[ "20_Naruto" ]}))
     = 1%nat).
Proof.
  intros H.
  assert (H2 : (2 <= count_raw repr_unused "20_Naruto" [naruto; naruto])%nat)
    by (vm_compute; lia).
  specialize (H H2). vm_compute in H. discriminate.
Qed.

(** C6 at work: the first endpoint times out, the second gives three
    entries, and the pass returns those three. *)
Lemma fault_isolation_witness :
  endpoint_failed (first_times_out (api_url current_season)) = true /\
  pass_new (fetch_recent_episodes repr_unused first_times_out true None ∅) =
    new_episodes (fetch_all repr_unused [currently_airing] first_times_out
                    {| last_seen_titles := ∅; new_episodes := [] |}) /\
  length (pass_new (fetch_recent_episodes repr_unused first_times_out true None ∅))
    = 3%nat.
Proof.
  assert (H : endpoint_failed (first_times_out (api_url current_season)) = true)
    by reflexivity.
  destruct (fault_isolation repr_unused [] [currently_airing] current_season
              first_times_out true None ∅ H) as [_ Hnew].
  split; [exact H|]. split; [exact Hnew|].
  change (fetch_recent_episodes repr_unused) with
    (fetch_recent_episodes_from repr_unused ([] ++ current_season :: [currently_airing])).
  rewrite Hnew. vm_compute. reflexivity.
Defined.

(** C5 at work: a store of seven identities, and the batch that put them
    there. *)
Lemma clear_resets_exposure_witness :
  Forall (fun anime =>
            seen_anime repr_unused (Globals.last_seen_titles seven_seen) anime
            = true) seven /\
  snd (Commands.clear general seven_seen) =
    [Text "🗑️ Cleared 7 tracked anime from cache. Next check will show all current anime as 'new'."] /\
  size (Globals.last_seen_titles (fst (Commands.clear general seven_seen))) = 0%nat /\
  fst (entry_differ repr_unused seven (Globals.last_seen_titles seven_seen)) = [] /\
  length (fst (entry_differ repr_unused seven
                 (Globals.last_seen_titles (fst (Commands.clear general seven_seen)))))
    = 7%nat.
Proof.
  assert (H : Forall (fun anime =>
            seen_anime repr_unused (Globals.last_seen_titles seven_seen) anime
            = true) seven).
  { repeat (constructor; [vm_compute; reflexivity|]). constructor. }
  destruct (clear_resets_exposure repr_unused general seven_seen seven H)
    as (Hmsg & Hsize & Hbefore & _).
  split; [exact H|]. split; [rewrite Hmsg; vm_compute; reflexivity|].
  split; [exact Hsize|]. split; [exact Hbefore|].
  vm_compute. reflexivity.
Defined.

(** C7 at work: a synopsis of 500 characters. *)
Lemma truncation_of_long_synopsis_witness :
  dict_lookup with_long_synopsis "synopsis" = Some (PStr long_synopsis) /\
  String.length long_synopsis = 500%nat /\
  exists e,
    make_episode_info (PDict with_long_synopsis)
      (PStr "One Piece") (PStr "One Piece") (PInt 21) = Ok e /\
    synopsis e = substring 0 200 long_synopsis +:+ "..." /\
    String.length (substring 0 200 long_synopsis) = 200%nat.
Proof.
  split; [reflexivity|]. split; [vm_compute; reflexivity|].
  destruct (make_episode_info (PDict with_long_synopsis)
              (PStr "One Piece") (PStr "One Piece") (PInt 21)) as [e|] eqn:He;
    [|vm_compute in He; discriminate].
  exists e. split; [reflexivity|].
  destruct (truncation_of_long_synopsis repr_unused with_long_synopsis
              long_synopsis _ _ _ e eq_refl eq_refl He) as (H1 & H2 & _).
  split; assumption.
Defined.

(** C8 at work: eight new entries, five blocks in full and the count of
    the three others. *)
Lemma notification_cap_witness :
  pass_new (fetch_recent_episodes repr_unused eight_everywhere true
              (Some (ctx_channel general)) ∅) <> [] /\
  exists e,
    pass_sent (fetch_recent_episodes repr_unused eight_everywhere true
                 (Some (ctx_channel general)) ∅) =
      Some (ctx_channel general, e) /\
    length (embed_fields e) = 6%nat /\
    embed_fields e !! 0%nat =
      Some {| field_name := "📺 Anime";
              field_value :=
                "**Status:** Currently Airing" +:+ nl +:+
                "**Score:** 8/10" +:+ nl +:+
                "**Episodes:** 12" +:+ nl +:+
                "**Synopsis:** A story...." +:+ nl +:+
                "[View on MAL](https://myanimelist.net/anime/1)";
              field_inline := false |} /\
    field_value <$> embed_fields e !! 4%nat =
      Some ("**Status:** Currently Airing" +:+ nl +:+
            "**Score:** 8/10" +:+ nl +:+
            "**Episodes:** 12" +:+ nl +:+
            "**Synopsis:** A story...." +:+ nl +:+
            "[View on MAL](https://myanimelist.net/anime/5)") /\
    embed_fields e !! 5%nat =
      Some {| field_name := "And more...";
              field_value := "3 additional anime updates!";
              field_inline := false |}.
Proof.
  assert (H : pass_new (fetch_recent_episodes repr_unused eight_everywhere true
              (Some (ctx_channel general)) ∅) <> [])
    by (vm_compute; discriminate).
  split; [exact H|].
  destruct (notification_cap repr_unused eight_everywhere true
              (ctx_channel general) ∅ H) as (e & Hsent & Hmore & _).
  exists e. split; [exact Hsent|].
  rewrite Hmore by (vm_compute; lia).
  repeat split; vm_compute; reflexivity.
Defined.

(** C9 at work: a score of 8 has its line. *)
Lemma score_and_episodes_lines_witness :
  exists e,
    make_episode_info (PDict (sample_fields 20 "Naruto"))
      (PStr "Naruto") (PStr "Naruto") (PInt 20) = Ok e /\
    exists pre post,
      anime_field_value repr_unused e =
      pre +:+ score_line repr_unused (PInt 8) +:+ post.
Proof.
  destruct (make_episode_info (PDict (sample_fields 20 "Naruto"))
              (PStr "Naruto") (PStr "Naruto") (PInt 20)) as [e|] eqn:He;
    [|vm_compute in He; discriminate].
  exists e. split; [reflexivity|].
  destruct (score_and_episodes_lines repr_unused (sample_fields 20 "Naruto")
              _ _ _ e He) as (Hscore & _).
  exact (Hscore (PInt 8) eq_refl eq_refl).
Defined.

(** C9 as it is worded fails: a score that is present and not null, but
    0, has no line in the field. *)
Lemma score_zero_has_no_line :
  ~ (forall e,
       make_episode_info (PDict unrated_fields)
         (PStr "Pilot") (PStr "Pilot") (PInt 1) = Ok e ->
       forall v, dict_lookup unrated_fields "score" = Some v -> v <> PNone ->
         exists pre post,
           anime_field_value repr_unused e =
           pre +:+ score_line repr_unused v +:+ post).
Proof.
  intros Hclaim.
  destruct (make_episode_info (PDict unrated_fields)
              (PStr "Pilot") (PStr "Pilot") (PInt 1)) as [e|] eqn:He;
    [|vm_compute in He; discriminate].
  destruct (Hclaim e eq_refl (PInt 0) eq_refl ltac:(discriminate))
    as (pre & post & Heq).
  pose proof (contains_infix (score_line repr_unused (PInt 0)) pre post) as Hin.
  rewrite <- Heq in Hin. vm_compute in He. injection He as <-.
  vm_compute in Hin. discriminate.
Qed.

(** The same entry as the bot shows it. *)
Example unrated_field_value :
  forall e,
    make_episode_info (PDict unrated_fields)
      (PStr "Pilot") (PStr "Pilot") (PInt 1) = Ok e ->
    anime_field_value repr_unused e =
      "**Status:** Not yet aired" +:+ nl +:+
      "**Synopsis:** No synopsis available" +:+ nl +:+
      "[View on MAL](https://myanimelist.net/anime/1)".
Proof. intros e He. vm_compute in He. injection He as <-. reflexivity. Qed.

(** A synopsis shorter than 200 characters still gets the ellipsis. *)
Example short_synopsis_gets_ellipsis :
  synopsis_of naruto = Ok "A story....".
Proof. reflexivity. Qed.

(** Two [start]s in a row on the bot as loaded: one task, and the second
    answer is the refusal. *)
Example start_twice :
  let g1 := fst (Commands.start general initial) in
  Globals.tasks g1 = [TaskInitial] /\
  Commands.start general g1 =
    (g1, [Text "❌ Anime checker is already running!"]).
Proof. split; reflexivity. Qed.

(** ** Further examples *)

Lemma only_a_full_answer_changes_witness :
  fetch_api repr_unused current_season (body [naruto])
    {| last_seen_titles := ∅; new_episodes := [] |} <>
    {| last_seen_titles := ∅; new_episodes := [] |} /\
  exists data x l,
    body [naruto] = Response 200 (Ok (PDict data)) /\
    dict_lookup data (api_key current_season) = Some (PList (x :: l)).
Proof.
  assert (H : fetch_api repr_unused current_season (body [naruto])
                {| last_seen_titles := ∅; new_episodes := [] |} <>
              {| last_seen_titles := ∅; new_episodes := [] |}).
  { intros Heq. apply (f_equal new_episodes) in Heq.
    vm_compute in Heq. discriminate. }
  split; [exact H|].
  exact (only_a_full_answer_changes repr_unused _ _ _ H).
Defined.

Lemma same_answer_twice_witness :
  api_key current_season = api_key currently_airing /\
  fetch_api repr_unused currently_airing (body [naruto; bleach])
    (fetch_api repr_unused current_season (body [naruto; bleach])
       {| last_seen_titles := ∅; new_episodes := [] |}) =
  fetch_api repr_unused current_season (body [naruto; bleach])
    {| last_seen_titles := ∅; new_episodes := [] |}.
Proof.
  split; [reflexivity|].
  exact (same_answer_twice repr_unused current_season currently_airing
           (body [naruto; bleach]) _ eq_refl).
Defined.

Lemma unchanged_catalog_gives_nothing_witness :
  Forall buildable (pass_items apis naruto_everywhere) /\
  pass_new
    (fetch_recent_episodes_from repr_unused apis naruto_everywhere true
       (Some (ctx_channel general))
       (pass_seen (fetch_recent_episodes_from repr_unused apis
                     naruto_everywhere false (Some (ctx_channel general)) ∅)))
  = [].
Proof.
  assert (H : Forall buildable (pass_items apis naruto_everywhere)).
  { change (pass_items apis naruto_everywhere) with [naruto; naruto].
    repeat (constructor; [eexists; reflexivity|]). constructor. }
  split; [exact H|].
  rewrite (unchanged_catalog_gives_nothing repr_unused apis naruto_everywhere
             false true (Some (ctx_channel general))
             (Some (ctx_channel general)) ∅ H).
  reflexivity.
Defined.

Lemma malformed_entry_cuts_the_list_witness :
  snd (for_anime repr_unused [naruto]
         {| last_seen_titles := ∅; new_episodes := [] |}) = true /\
  process_anime repr_unused aired_null
    (fst (for_anime repr_unused [naruto]
            {| last_seen_titles := ∅; new_episodes := [] |})) = Raise /\
  for_anime repr_unused ([naruto] ++ aired_null :: [bleach])
    {| last_seen_titles := ∅; new_episodes := [] |} =
  (fst (for_anime repr_unused [naruto]
          {| last_seen_titles := ∅; new_episodes := [] |}), false).
Proof.
  assert (H1 : snd (for_anime repr_unused [naruto]
         {| last_seen_titles := ∅; new_episodes := [] |}) = true)
    by (vm_compute; reflexivity).
  assert (H2 : process_anime repr_unused aired_null
    (fst (for_anime repr_unused [naruto]
            {| last_seen_titles := ∅; new_episodes := [] |})) = Raise)
    by (vm_compute; reflexivity).
  split; [exact H1|]. split; [exact H2|].
  exact (malformed_entry_cuts_the_list repr_unused [naruto] [bleach]
           aired_null _ H1 H2).
Defined.

Lemma malformed_raw_entries_witness :
  dict_lookup aired_null_fields "aired" = Some PNone /\
  (forall d', PNone <> PDict d') /\
  anime_identity repr_unused aired_null = Ok "5_Cowboy Bebop" /\
  process_anime repr_unused aired_null
    {| last_seen_titles := ∅; new_episodes := [] |} = Raise /\
  process_anime repr_unused aired_null
    {| last_seen_titles := {[ "5_Cowboy Bebop" ]}; new_episodes := [] |} =
  Ok {| last_seen_titles := {[ "5_Cowboy Bebop" ]}; new_episodes := [] |}.
Proof.
  assert (Hv : forall d', PNone <> PDict d') by discriminate.
  split; [reflexivity|]. split; [exact Hv|]. split; [reflexivity|]. split.
  - apply (malformed_raw_entries repr_unused aired_null_fields PNone
             "5_Cowboy Bebop" _ eq_refl Hv eq_refl). set_solver.
  - apply (malformed_raw_entries repr_unused aired_null_fields PNone
             "5_Cowboy Bebop" _ eq_refl Hv eq_refl). simpl. set_solver.
Defined.

Lemma update_is_not_news_witness :
  dict_lookup (sample_fields 20 "Naruto") "mal_id" =
    dict_lookup rescored_fields "mal_id" /\
  dict_lookup (sample_fields 20 "Naruto") "title" =
    dict_lookup rescored_fields "title" /\
  exists st',
    process_anime repr_unused naruto
      {| last_seen_titles := ∅; new_episodes := [] |} = Ok st' /\
    process_anime repr_unused (PDict rescored_fields) st' = Ok st'.
Proof.
  split; [reflexivity|]. split; [reflexivity|].
  destruct (process_anime repr_unused naruto
              {| last_seen_titles := ∅; new_episodes := [] |})
    as [st'|] eqn:Hp; [|vm_compute in Hp; discriminate].
  exists st'. split; [reflexivity|].
  exact (update_is_not_news repr_unused (sample_fields 20 "Naruto")
           rescored_fields _ st' eq_refl eq_refl Hp).
Defined.

Lemma title_fallback_witness :
  exists e,
    entry_of naruto = Ok e /\
    title_jp e = PStr "Naruto" /\
    title e = title_jp e.
Proof.
  destruct (entry_of naruto) as [e|] eqn:He; [|vm_compute in He; discriminate].
  exists e. split; [reflexivity|].
  destruct (title_fallback repr_unused (sample_fields 20 "Naruto") e He)
    as (Hj & Ht & _).
  split; [exact Hj | exact Ht].
Defined.

Lemma synopsis_not_a_string_witness :
  dict_lookup numeric_synopsis "synopsis" = Some (PInt 7) /\
  (forall s, PInt 7 <> PStr s) /\
  synopsis_of (PDict numeric_synopsis) = Raise.
Proof.
  assert (Hv : forall s, PInt 7 <> PStr s) by discriminate.
  split; [reflexivity|]. split; [exact Hv|].
  exact (proj1 (synopsis_not_a_string numeric_synopsis (PInt 7) eq_refl Hv)).
Defined.

Lemma summary_is_short_witness :
  synopsis_of (PDict with_long_synopsis) =
    Ok (substring 0 200 long_synopsis +:+ "...") /\
  (String.length (substring 0 200 long_synopsis +:+ "...") <= 203)%nat.
Proof.
  assert (H : synopsis_of (PDict with_long_synopsis) =
              Ok (substring 0 200 long_synopsis +:+ "..."))
    by reflexivity.
  split; [exact H|]. exact (summary_is_short _ _ H).
Defined.

Lemma only_clear_removes_witness :
  Forall (fun ev => is_clear ev = false)
    [CmdStart general; LoopPass 0 naruto_everywhere false;
     CmdStop general; TaskExit 0] /\
  Globals.last_seen_titles seven_seen ⊆
  Globals.last_seen_titles
    (run repr_unused
       [CmdStart general; LoopPass 0 naruto_everywhere false;
        CmdStop general; TaskExit 0] seven_seen).
Proof.
  assert (H : Forall (fun ev => is_clear ev = false)
    [CmdStart general; LoopPass 0 naruto_everywhere false;
     CmdStop general; TaskExit 0])
    by (repeat constructor).
  split; [exact H|].
  exact (only_clear_removes repr_unused _ seven_seen H).
Defined.

Lemma loop_outlives_failed_passes_witness :
  Globals.tasks
    (run repr_unused [CmdStart general; LoopPass 0 naruto_everywhere true]
       initial) !! 0%nat = Some TaskLooping /\
  Globals.tasks
    (run repr_unused
       (map (fun p => LoopPass 0 (fst p) (snd p))
          [(eight_everywhere, false); (first_times_out, false)])
       (run repr_unused [CmdStart general; LoopPass 0 naruto_everywhere true]
          initial)) !! 0%nat = Some TaskLooping.
Proof.
  assert (H : Globals.tasks
    (run repr_unused [CmdStart general; LoopPass 0 naruto_everywhere true]
       initial) !! 0%nat = Some TaskLooping) by reflexivity.
  split; [exact H|].
  exact (proj1 (loop_outlives_failed_passes repr_unused 0 _
                  [(eight_everywhere, false); (first_times_out, false)] H)).
Defined.

Lemma failed_first_delivery_ends_the_checker_witness :
  Globals.tasks (fst (Commands.start general initial)) !! 0%nat =
    Some TaskInitial /\
  pass_new (fetch_recent_episodes repr_unused naruto_everywhere false
              (Some (ctx_channel general)) ∅) <> [] /\
  running (loop_pass repr_unused 0 naruto_everywhere false
             (fst (Commands.start general initial))) = false /\
  "20_Naruto" ∈
    Globals.last_seen_titles
      (loop_pass repr_unused 0 naruto_everywhere false
         (fst (Commands.start general initial))).
Proof.
  assert (Hnew : pass_new (fetch_recent_episodes repr_unused naruto_everywhere
              false (Some (ctx_channel general)) ∅) <> [])
    by (vm_compute; discriminate).
  split; [reflexivity|]. split; [exact Hnew|].
  destruct (failed_first_delivery_ends_the_checker repr_unused 0
              naruto_everywhere (fst (Commands.start general initial))
              (ctx_channel general) eq_refl eq_refl eq_refl Hnew)
    as (_ & Hrun & _).
  split; [exact Hrun|]. vm_compute. reflexivity.
Defined.

Lemma stop_then_start_again_witness :
  Globals.check_task (run repr_unused [CmdStart general] initial) = Some 0%nat /\
  active (run repr_unused [CmdStart general] initial) 0 = true /\
  Globals.tasks
    (fst (Commands.stop general (run repr_unused [CmdStart general] initial)))
    !! 0%nat = Some TaskCancelling /\
  Globals.tasks
    (fst (Commands.start announcements
            (task_exit 0
               (fst (Commands.stop general
                       (run repr_unused [CmdStart general] initial))))))
    = [TaskDone; TaskInitial] /\
  Globals.notification_channel
    (fst (Commands.start announcements
            (task_exit 0
               (fst (Commands.stop general
                       (run repr_unused [CmdStart general] initial)))))) =
    Some (ctx_channel announcements).
Proof.
  split; [reflexivity|]. split; [reflexivity|].
  destruct (stop_then_start_again repr_unused [CmdStart general]
              general announcements 0 eq_refl eq_refl)
    as (_ & _ & Hcancel & _ & _ & _ & _ & _ & _ & _ & H).
  split; [exact Hcancel|]. split; [reflexivity | exact H].
Defined.
